(** * Jigsaw puzzle core of [src/App.tsx]

    A shallow embedding of the pure parts of the puzzle component: the
    piece outlines ([edgePathTop] .. [buildPiecePath]), the image tiling
    ([getPieceCoords], [imagePattern]), the edge codes ([getEdges]), the
    drop handler ([handleDrop]) and the scatter layout
    ([generateScatter]).

    Integers of the program (grid coordinates, slots, edge codes, path
    coordinates) are [Z]; the pixel arithmetic of the scatter layout is
    binary64, as JavaScript numbers are; objects used as dictionaries
    are [gmap string _]. *)

From Stdlib Require Import ZArith List Lia Bool PrimFloat Uint63.
From Stdlib Require Import SpecFloat FloatOps FloatAxioms.
From stdpp Require Import gmap strings pretty list.

Local Open Scope Z_scope.

(* ===================================================================== *)
(** ** Data *)
(* ===================================================================== *)

Module Piece.
Record t : Type := mk { id : string; label : string; slot : Z }.
End Piece.

Module Edges.
Record t : Type := mk { top : Z; right : Z; bottom : Z; left : Z }.
End Edges.

(** The program writes edge codes as bare numbers; these are the names
    the documentation gives them. *)
Definition FLAT : Z := 0.
Definition TAB : Z := 1.
Definition BLANK : Z := -1.

Definition ROWS : Z := 4.
Definition COLS : Z := 4.

(** [Array.from({ length: 16 }, (_, index) => ...)] *)
Definition pieces : list Piece.t :=
  (fun index : nat =>
     Piece.mk ("p" +:+ pretty (index + 1)%nat)
              (pretty (index + 1)%nat)
              (Z.of_nat index)) <$> seq 0 16.

Definition tabRadius : Z := 22.

(* ===================================================================== *)
(** ** Piece outlines *)
(* ===================================================================== *)

(** The outline is built as text in the path language of the host; the
    model keeps the commands apart and [pathString] joins them with single
    spaces, which is the text the program builds. *)
Inductive Cmd : Type :=
| MoveTo (x y : Z)
| LineTo (x y : Z)
| Arc (rx ry rot large sweep x y : Z)
| Close.

Definition arc (r sweep x y : Z) : Cmd := Arc r r 0 0 sweep x y.

Definition edgePathTop (edge : Z) : list Cmd :=
  if edge =? 0 then [LineTo 100 0]
  else
    let r := tabRadius in
    let sweep := if edge =? 1 then 1 else 0 in
    [LineTo (50 - r) 0; arc r sweep (50 + r) 0; LineTo 100 0].

Definition edgePathRight (edge : Z) : list Cmd :=
  if edge =? 0 then [LineTo 100 100]
  else
    let r := tabRadius in
    let sweep := if edge =? 1 then 0 else 1 in
    [LineTo 100 (50 - r); arc r sweep 100 (50 + r); LineTo 100 100].

Definition edgePathBottom (edge : Z) : list Cmd :=
  if edge =? 0 then [LineTo 0 100]
  else
    let r := tabRadius in
    let sweep := if edge =? 1 then 1 else 0 in
    [LineTo (50 + r) 100; arc r sweep (50 - r) 100; LineTo 0 100].

Definition edgePathLeft (edge : Z) : list Cmd :=
  if edge =? 0 then [LineTo 0 0]
  else
    let r := tabRadius in
    let sweep := if edge =? 1 then 0 else 1 in
    [LineTo 0 (50 + r); arc r sweep 0 (50 - r); LineTo 0 0].

Definition buildPiecePath (edges : Edges.t) : list Cmd :=
  [MoveTo 0 0]
    ++ edgePathTop (Edges.top edges)
    ++ edgePathRight (Edges.right edges)
    ++ edgePathBottom (Edges.bottom edges)
    ++ edgePathLeft (Edges.left edges)
    ++ [Close].

Definition cmdString (c : Cmd) : string :=
  match c with
  | MoveTo x y => "M " +:+ pretty x +:+ " " +:+ pretty y
  | LineTo x y => "L " +:+ pretty x +:+ " " +:+ pretty y
  | Arc rx ry rot large sweep x y =>
      "A " +:+ pretty rx +:+ " " +:+ pretty ry +:+ " " +:+ pretty rot
           +:+ " " +:+ pretty large +:+ " " +:+ pretty sweep
           +:+ " " +:+ pretty x +:+ " " +:+ pretty y
  | Close => "Z"
  end.

Fixpoint pathString (p : list Cmd) : string :=
  match p with
  | [] => ""
  | [c] => cmdString c
  | c :: p' => cmdString c +:+ " " +:+ pathString p'
  end.

(** *** Reading a path

    What the host does with the text.  A path is drawn from a current
    point; [MoveTo] starts a subpath, [LineTo] and [Arc] end at the point
    they name, [Close] returns to the start of the subpath. *)

Definition Point : Type := (Z * Z)%type.

Record Pen : Type := mkPen { current : Point; subpathStart : Point }.

Definition stepPen (pen : Pen) (c : Cmd) : Pen :=
  match c with
  | MoveTo x y => mkPen (x, y) (x, y)
  | LineTo x y => mkPen (x, y) (subpathStart pen)
  | Arc _ _ _ _ _ x y => mkPen (x, y) (subpathStart pen)
  | Close => mkPen (subpathStart pen) (subpathStart pen)
  end.

Definition runPen (pen : Pen) (p : list Cmd) : Pen := fold_left stepPen p pen.

(** First point of a path: where its opening [MoveTo] puts the pen. *)
Definition startPoint (p : list Cmd) : option Point :=
  match p with
  | MoveTo x y :: _ => Some (x, y)
  | _ => None
  end.

(** Last point of a path: where the pen is after the last command. *)
Definition endPoint (p : list Cmd) : Point := current (runPen (mkPen (0, 0) (0, 0)) p).

(** An arc command [A r r 0 0 sweep x1 y1] drawn from [(x0, y0)] whose
    end points are a diameter apart ([2r]) is a half circle about the
    midpoint of its chord.  With sweep flag 1 the host draws it in the
    direction of increasing angle, [x = cx + r cos a], [y = cy + r sin a]
    (clockwise on screen, the y axis pointing down); with flag 0 in the
    other direction.  [arcApex] is the point of the arc half way between
    its ends: the start vector turned a quarter turn that way.  Other arcs
    (not a half circle, or with a centre off the integer grid) have no
    integer apex. *)
Definition arcApex (from : Point) (r sweep x1 y1 : Z) : option Point :=
  let '(x0, y0) := from in
  if ((x1 - x0) ^ 2 + (y1 - y0) ^ 2 =? (2 * r) ^ 2)
       && Z.even (x0 + x1) && Z.even (y0 + y1)
  then
    let cx := (x0 + x1) / 2 in
    let cy := (y0 + y1) / 2 in
    let vx := x0 - cx in
    let vy := y0 - cy in
    Some (if sweep =? 1 then (cx - vy, cy + vx) else (cx + vy, cy - vx))
  else None.

(** The apexes of the arcs of a path, in drawing order. *)
Fixpoint arcApexes (pen : Pen) (p : list Cmd) : list (option Point) :=
  match p with
  | [] => []
  | c :: p' =>
      match c with
      | Arc r _ _ _ sweep x y => [arcApex (current pen) r sweep x y]
      | _ => []
      end ++ arcApexes (stepPen pen c) p'
  end.

Definition penAt (pt : Point) : Pen := mkPen pt pt.

(** Position of a point against the cell, the square from 0 to 100. *)
Definition insideCell (pt : Point) : Prop :=
  0 < pt.1 < 100 ∧ 0 < pt.2 < 100.

Definition outsideCell (pt : Point) : Prop :=
  pt.1 < 0 ∨ 100 < pt.1 ∨ pt.2 < 0 ∨ 100 < pt.2.

Module Bounds.
Record t : Type := mk { x : Z; y : Z; width : Z; height : Z }.
End Bounds.

Definition maskBounds (radius : Z) : Bounds.t :=
  Bounds.mk (- radius) (- radius) (100 + radius * 2) (100 + radius * 2).

(* ===================================================================== *)
(** ** Image tiling *)
(* ===================================================================== *)

Module Coords.
Record t : Type := mk { row : Z; col : Z }.
End Coords.

(** [Math.floor(slot / COLS)] is [Z.div] (which rounds down); [%] is the
    remainder with the sign of the dividend, [Z.rem].  The program's
    [-col * 100] is the number -0 for column 0, which compares equal to 0
    and prints as 0. *)
Definition getPieceCoords (slot : Z) : Coords.t :=
  Coords.mk (slot / COLS) (Z.rem slot COLS).

Module Pattern.
Record t : Type := mk { id : string; width : Z; height : Z; x : Z; y : Z }.
End Pattern.

Definition imagePattern (piece : Piece.t) : Pattern.t :=
  let c := getPieceCoords (Piece.slot piece) in
  let imageSize := 100 * COLS in
  Pattern.mk ("img-" +:+ Piece.id piece)
             imageSize
             imageSize
             (- Coords.col c * 100)
             (- Coords.row c * 100).

(* ===================================================================== *)
(** ** Edge codes *)
(* ===================================================================== *)

Definition tab (r c : Z) : Z := if Z.rem (r + c) 2 =? 0 then 1 else -1.

Definition getEdges (row col : Z) : Edges.t :=
  Edges.mk (if row =? 0 then 0 else tab (row - 1) col)
           (if col =? COLS - 1 then 0 else tab row col)
           (if row =? ROWS - 1 then 0 else - tab row col)
           (if col =? 0 then 0 else - tab row (col - 1)).

(** One TAB and one BLANK. *)
Definition complementary (a b : Z) : Prop :=
  (a = TAB ∧ b = BLANK) ∨ (a = BLANK ∧ b = TAB).

(* ===================================================================== *)
(** ** Placement state *)
(* ===================================================================== *)

(** [Object.fromEntries]: a later entry with the same key wins. *)
Definition fromEntries {V : Type} (entries : list (string * V)) : gmap string V :=
  fold_left (fun m kv => <[kv.1 := kv.2]> m) entries ∅.

(** Initial value of the [placed] state. *)
Definition initialPlaced : gmap string bool :=
  fromEntries ((fun piece => (Piece.id piece, false)) <$> pieces).

Definition piecesById : gmap string Piece.t :=
  fromEntries ((fun piece => (Piece.id piece, piece)) <$> pieces).

(** [placed[id]] read as a condition: a missing key reads [undefined],
    which is falsy.  (A key inherited from the object prototype reads as a
    function, which is truthy; such a text names no piece, and the drop is
    refused either way.) *)
Definition truthy (v : option bool) : bool := default false v.

(** [handleDrop], as a function from the [placed] state the handler was
    rendered with to the state after the event.  [id] is the text carried
    by the drag. *)
Definition handleDrop (placed : gmap string bool) (id : string) (slotIndex : Z)
  : gmap string bool :=
  if String.eqb id "" || truthy (placed !! id) then placed
  else
    match piecesById !! id with
    | None => placed
    | Some piece =>
        if negb (Piece.slot piece =? slotIndex) then placed
        else <[id := true]> placed
    end.

(** [Object.values(placed).every(Boolean)] *)
Definition isComplete (placed : gmap string bool) : bool :=
  forallb (fun kv : string * bool => kv.2) (map_to_list placed).

(* ===================================================================== *)
(** ** Scatter layout *)
(* ===================================================================== *)

(** Pixel quantities are binary64 numbers.  [1.1] has no exact binary64
    value; the literal denotes the nearest one, here as in the program. *)
Set Warnings "-inexact-float".

Module Rect.
Record t : Type := mk { left : float; top : float; width : float; height : float }.
End Rect.

Module Window.
Record t : Type := mk { innerWidth : float; innerHeight : float }.
End Window.

Module Pos.
Record t : Type := mk { x : float; y : float; tilt : float }.
End Pos.

Module Start.
Record t : Type := mk { x : float; y : float }.
End Start.

Module Entry.
Record t : Type := mk { start : Start.t; tilt : float }.
End Entry.

Definition floatOfZ (z : Z) : float := of_uint63 (Uint63.of_Z z).

Definition svgScale : float := ((100 + floatOfZ tabRadius * 2) / 100)%float.

Definition maxAttempts : nat := 600.

(** The constants [generateScatter] computes before it places anything. *)
Module Frame.
Record t : Type := mk {
  minDistance : float;
  minX : float; maxX : float;
  minY : float; maxY : float
}.
End Frame.

Definition frameOf (win : Window.t) (rect : Rect.t) : Frame.t :=
  let centerX := (Rect.left rect + Rect.width rect / 2)%float in
  let centerY := (Rect.top rect + Rect.height rect / 2)%float in
  let pieceSize := (if Window.innerWidth win <=? 700 then 86 else 96)%float in
  let pieceVisualSize := (pieceSize * svgScale)%float in
  let minDistance := (pieceVisualSize * 1.1)%float in
  let padding := 48%float in
  Frame.mk minDistance
    (padding + pieceVisualSize / 2 - centerX)%float
    (Window.innerWidth win - padding - pieceVisualSize / 2 - centerX)%float
    (padding + pieceVisualSize / 2 - centerY)%float
    (Window.innerHeight win - padding - pieceVisualSize / 2 - centerY)%float.

Definition safeMinX (f : Frame.t) : float :=
  (if Frame.minX f <=? Frame.maxX f then Frame.minX f
   else (Frame.minX f + Frame.maxX f) / 2)%float.

Definition safeMaxX (f : Frame.t) : float :=
  (if Frame.minX f <=? Frame.maxX f then Frame.maxX f
   else (Frame.minX f + Frame.maxX f) / 2)%float.

Definition safeMinY (f : Frame.t) : float :=
  (if Frame.minY f <=? Frame.maxY f then Frame.minY f
   else (Frame.minY f + Frame.maxY f) / 2)%float.

Definition safeMaxY (f : Frame.t) : float :=
  (if Frame.minY f <=? Frame.maxY f then Frame.maxY f
   else (Frame.minY f + Frame.maxY f) / 2)%float.

(** Code that draws random numbers: the state is the number of calls made
    to [Math.random] so far. *)
Definition Rand (A : Type) : Type := N → A * N.

Definition ret {A : Type} (a : A) : Rand A := λ n, (a, n).

Definition bind {A B : Type} (c : Rand A) (k : A → Rand B) : Rand B :=
  λ n, let r := c n in k r.1 r.2.

Notation "'run' x <- c ; k" := (bind c (λ x, k))
  (at level 10, x name, c at level 100, k at level 200).

Definition entryOf (pos : Pos.t) : Entry.t :=
  Entry.mk (Start.mk (Pos.x pos) (Pos.y pos)) (Pos.tilt pos).

(** [pieces.map((piece, index) => [piece.id, {... positions[index] ...}])],
    from [index] on.  Reading a field of [positions[index]] when the array
    is too short raises a TypeError: [None]. *)
Fixpoint entriesFrom (positions : list Pos.t) (index : nat) (ps : list Piece.t)
  : option (list (string * Entry.t)) :=
  match ps with
  | [] => Some []
  | piece :: ps' =>
      match positions !! index with
      | None => None
      | Some pos =>
          match entriesFrom positions (S index) ps' with
          | None => None
          | Some rest => Some ((Piece.id piece, entryOf pos) :: rest)
          end
      end
  end.

Definition initialScatter : gmap string Entry.t :=
  fromEntries ((fun piece => (Piece.id piece, Entry.mk (Start.mk 0 0) 0)) <$> pieces).

Section Scatter.

(** [random n] is what the [n]-th call of [Math.random] returns (counted
    from 0), [hypot] is [Math.hypot] on two arguments. *)
Variable random : N → float.
Variable hypot : float → float → float.

Definition mathRandom : Rand float := λ n, (random n, N.succ n).

Definition rand (min max : float) : Rand float :=
  run u <- mathRandom ; ret (min + u * (max - min))%float.

Definition sampleCandidate (f : Frame.t) : Rand Pos.t :=
  run x <- rand (safeMinX f) (safeMaxX f) ;
  run y <- rand (safeMinY f) (safeMaxY f) ;
  run tilt <- rand (-14) 14 ;
  ret (Pos.mk x y tilt).

(** [Math.hypot(dx, dy) >= minDistance] *)
Definition farEnough (f : Frame.t) (pos candidate : Pos.t) : bool :=
  let dx := (Pos.x pos - Pos.x candidate)%float in
  let dy := (Pos.y pos - Pos.y candidate)%float in
  (Frame.minDistance f <=? hypot dx dy)%float.

(** [positions.every(...)] *)
Definition clear (f : Frame.t) (positions : list Pos.t) (candidate : Pos.t) : bool :=
  forallb (λ pos, farEnough f pos candidate) positions.

(** The [for] loop with [budget] attempts left.  Returns the array after
    the loop and the value of the local [placed]. *)
Fixpoint attemptLoop (f : Frame.t) (budget : nat) (positions : list Pos.t)
  : Rand (list Pos.t * bool) :=
  match budget with
  | O => ret (positions, false)
  | S budget' =>
      run candidate <- sampleCandidate f ;
      if clear f positions candidate
      then ret (positions ++ [candidate], true)
      else attemptLoop f budget' positions
  end.

(** The body of [pieces.forEach]. *)
Definition placeOne (f : Frame.t) (positions : list Pos.t)
  : Rand (list Pos.t * bool) :=
  run r <- attemptLoop f maxAttempts positions ;
  if negb r.2
  then run candidate <- sampleCandidate f ; ret (r.1 ++ [candidate], r.2)
  else ret r.

(** [pieces.forEach(() => ...)].  Beside the array, the model records for
    each piece the final value of its local [placed]: whether it was
    accepted within the budget. *)
Fixpoint forEachPiece (f : Frame.t) (ps : list Piece.t)
         (acc : list Pos.t * list bool) : Rand (list Pos.t * list bool) :=
  match ps with
  | [] => ret acc
  | _ :: ps' =>
      run r <- placeOne f acc.1 ;
      forEachPiece f ps' (r.1, acc.2 ++ [r.2])
  end.

Definition scatterPositions (win : Window.t) (rect : Rect.t)
  : Rand (list Pos.t * list bool) :=
  forEachPiece (frameOf win rect) pieces ([], []).

(** [generateScatter], as a function from the [scatter] state to the
    state after the call; [stage] is [stageRef.current], and without a
    stage the call returns at once and leaves the state as it was.  The
    result [None] stands for a raised exception. *)
Definition generateScatter (win : Window.t) (stage : option Rect.t)
           (scatter : gmap string Entry.t)
  : Rand (option (gmap string Entry.t)) :=
  match stage with
  | None => ret (Some scatter)
  | Some rect =>
      run r <- scatterPositions win rect ;
      ret (fromEntries <$> entriesFrom r.1 0 pieces)
  end.

(** The candidate built from the three draws that start at draw [n]. *)
Definition candidateAt (f : Frame.t) (n : N) : Pos.t := (sampleCandidate f n).1.

End Scatter.

(** A [Math.hypot] for closed examples: the rounded square root of the
    rounded sum of squares. *)
Definition hypotSqrt (dx dy : float) : float := PrimFloat.sqrt (dx * dx + dy * dy)%float.

(** ** Claims as the documentation words them, for comparison *)

(** The arcs an edge function draws when the pen starts at [from]. *)
Definition arcsFrom (from : Point) (edgePath : Z → list Cmd) (edge : Z)
  : list (option Point) :=
  arcApexes (penAt from) (edgePath edge).

Definition topArc : Z → list (option Point) := arcsFrom (0, 0) edgePathTop.
Definition rightArc : Z → list (option Point) := arcsFrom (100, 0) edgePathRight.
Definition bottomArc : Z → list (option Point) := arcsFrom (100, 100) edgePathBottom.
Definition leftArc : Z → list (option Point) := arcsFrom (0, 100) edgePathLeft.

(** TAB bulges away from the cell and BLANK carves into it. *)
Definition bulgesAsNamed (arcs : Z → list (option Point)) : Prop :=
  (∃ p, arcs TAB = [Some p] ∧ outsideCell p)
  ∧ (∃ p, arcs BLANK = [Some p] ∧ insideCell p).

(** The other way round: code 1 carves in, code -1 bulges out. *)
Definition bulgesInverted (arcs : Z → list (option Point)) : Prop :=
  (∃ p, arcs TAB = [Some p] ∧ insideCell p)
  ∧ (∃ p, arcs BLANK = [Some p] ∧ outsideCell p).

Definition shiftPoint (dx dy : Z) (p : option Point) : option Point :=
  (λ q : Point, (q.1 + dx, q.2 + dy)) <$> p.

(** An edge of a cell against the border of the grid carries FLAT, any
    other edge carries TAB or BLANK. *)
Definition edgeCodeFits (onBorder : Prop) (code : Z) : Prop :=
  (onBorder ∧ code = FLAT) ∨ (¬ onBorder ∧ (code = TAB ∨ code = BLANK)).

Definition isPlaced (placed : gmap string bool) (id : string) : Prop :=
  placed !! id = Some true.

(** [id] names a piece whose home slot is [slotIndex]. *)
Definition homeOf (id : string) (slotIndex : Z) : Prop :=
  ∃ piece, piece ∈ pieces ∧ Piece.id piece = id ∧ Piece.slot piece = slotIndex.

(** Draw at which the candidate of attempt [k] (counted from 0) begins,
    for a piece whose first draw is [n]: a candidate takes three draws. *)
Definition attemptDraw (n : N) (k : nat) : N := n + 3 * N.of_nat k.

(** Attempt [k] is within the budget and is the first whose candidate is
    far enough from every position accepted so far. *)
Definition firstClear (random : N → float) (hypot : float → float → float)
           (f : Frame.t) (positions : list Pos.t) (n : N) (k : nat) : Prop :=
  (k < maxAttempts)%nat
  ∧ clear hypot f positions (candidateAt random f (attemptDraw n k)) = true
  ∧ ∀ j, (j < k)%nat →
         clear hypot f positions (candidateAt random f (attemptDraw n j)) = false.

(** No candidate of the budget is far enough. *)
Definition budgetExhausted (random : N → float) (hypot : float → float → float)
           (f : Frame.t) (positions : list Pos.t) (n : N) : Prop :=
  ∀ j, (j < maxAttempts)%nat →
       clear hypot f positions (candidateAt random f (attemptDraw n j)) = false.

(** Every position is far enough from every earlier one, measured as the
    program measures it. *)
Definition separated (hypot : float → float → float) (f : Frame.t)
           (positions : list Pos.t) : Prop :=
  ∀ i j p q, (i < j)%nat → positions !! i = Some p → positions !! j = Some q →
             farEnough hypot f p q = true.

(** The reading of the fallback under which the entry kept for a piece
    that exhausts its budget is the candidate of its last attempt. *)
Definition keepsLastAttempt (random : N → float) (hypot : float → float → float)
           (f : Frame.t) (positions : list Pos.t) (n : N) : Prop :=
  budgetExhausted random hypot f positions n →
  (placeOne random hypot f positions n).1.1
  = positions ++ [candidateAt random f (attemptDraw n (maxAttempts - 1))].

(** The [scatter] state holds one entry per piece, the one built from the
    position of the same index. *)
Definition oneEntryPerPiece (positions : list Pos.t) (scatter : gmap string Entry.t)
  : Prop :=
  length positions = length pieces
  ∧ size scatter = length pieces
  ∧ ∀ (index : nat) (piece : Piece.t), pieces !! index = Some piece →
      ∃ pos, positions !! index = Some pos
             ∧ scatter !! Piece.id piece = Some (entryOf pos).

(** Sample sources and viewports for closed examples. *)
Definition sampleHash (n : N) : float :=
  (floatOfZ (((Z.of_N n + 17) * (Z.of_N n + 17) * 48271 + Z.of_N n * 69621) mod 65521)
   / 65521)%float.

Definition sampleRamp (n : N) : float := (floatOfZ (Z.of_N n) / 32768)%float.

Definition wideWindow : Window.t := Window.mk 1920 1080.
Definition wideStage : Rect.t := Rect.mk 0 0 1920 1080.
Definition tinyWindow : Window.t := Window.mk 100 100.
Definition tinyStage : Rect.t := Rect.mk 0 0 100 100.

(* ===================================================================== *)
(** ** The markup and the handlers around the pure functions *)
(* ===================================================================== *)

(** The edges of a piece as the markup computes them:
    [getEdges(Math.floor(piece.slot / COLS), piece.slot % COLS)]. *)
Definition pieceEdges (piece : Piece.t) : Edges.t :=
  getEdges (Piece.slot piece / COLS) (Z.rem (Piece.slot piece) COLS).

Definition piecePath (piece : Piece.t) : list Cmd := buildPiecePath (pieceEdges piece).

(** The element ids one piece's drawing declares: the gradient, the image
    pattern and the clip path, and the references the drawing makes to the
    last two. *)
Definition gradId (piece : Piece.t) : string := "grad-" +:+ Piece.id piece.
Definition clipId (piece : Piece.t) : string := "clip-" +:+ Piece.id piece.

Definition svgIds (piece : Piece.t) : list string :=
  [gradId piece; Pattern.id (imagePattern piece); clipId piece].

Definition fillUrl (piece : Piece.t) : string :=
  "url(#" +:+ Pattern.id (imagePattern piece) +:+ ")".

Definition clipUrl (piece : Piece.t) : string := "url(#clip-" +:+ Piece.id piece +:+ ")".

(** The board: one slot element per piece, carrying the slot index its
    drop handler passes on, and the piece drawn in it when
    [placed[piece.id]] is truthy. *)
Definition boardSlots (placed : gmap string bool) : list (Z * option Piece.t) :=
  (λ piece, (Piece.slot piece,
             if truthy (placed !! Piece.id piece) then Some piece else None))
    <$> pieces.

(** The tray: [pieces.filter((piece) => !placed[piece.id])]. *)
Definition trayPieces (placed : gmap string bool) : list Piece.t :=
  filter (λ piece, negb (truthy (placed !! Piece.id piece)) = true) pieces.

(** Every id declared by the drawings on the page, board first. *)
Definition renderedIds (placed : gmap string bool) : list string :=
  (omap snd (boardSlots placed) ≫= svgIds) ++ (trayPieces placed ≫= svgIds).

(** The transform of each tray piece reads [scatter[piece.id].start] and
    [.tilt]; reading a field of a missing entry raises: [None]. *)
Definition trayEntries (placed : gmap string bool) (scatter : gmap string Entry.t)
  : option (list (Piece.t * Entry.t)) :=
  mapM (λ piece, match scatter !! Piece.id piece with
                 | Some entry => Some (piece, entry)
                 | None => None
                 end)
       (trayPieces placed).

(** The data a drag carries, as the handlers use it: [setData] stores a
    text under a format, [getData] reads it back and gives the empty text
    for a format that was never set. *)
Module DataTransfer.
Record t : Type := mk {
  data : gmap string string;
  effectAllowed : string;
  dropEffect : string
}.
End DataTransfer.

Definition setData (dt : DataTransfer.t) (format value : string) : DataTransfer.t :=
  DataTransfer.mk (<[format := value]> (DataTransfer.data dt))
                  (DataTransfer.effectAllowed dt) (DataTransfer.dropEffect dt).

Definition getData (dt : DataTransfer.t) (format : string) : string :=
  default "" (DataTransfer.data dt !! format).

Definition handleDragStart (dt : DataTransfer.t) (id : string) : DataTransfer.t :=
  let dt' := setData dt "text/plain" id in
  DataTransfer.mk (DataTransfer.data dt') "move" (DataTransfer.dropEffect dt').

Definition handleDragOver (dt : DataTransfer.t) : DataTransfer.t :=
  DataTransfer.mk (DataTransfer.data dt) (DataTransfer.effectAllowed dt) "move".

(** [handleDrop] from the event: the id is the text of the drag. *)
Definition handleDropEvent (placed : gmap string bool) (dt : DataTransfer.t)
           (slotIndex : Z) : gmap string bool :=
  handleDrop placed (getData dt "text/plain") slotIndex.

(** The state after a series of drops, each a text and a slot index. *)
Definition dropAll (placed : gmap string bool) (drops : list (string * Z))
  : gmap string bool :=
  fold_left (λ placed d, handleDrop placed d.1 d.2) drops placed.

(** The keys of the state are the ids of the pieces. *)
Definition keysArePieces {V : Type} (m : gmap string V) : Prop :=
  ∀ id, is_Some (m !! id) ↔ ∃ piece, piece ∈ pieces ∧ Piece.id piece = id.

(** The points a path names: where each command ends. *)
Definition pathVertices (p : list Cmd) : list Point :=
  omap (λ c, match c with
             | MoveTo x y | LineTo x y | Arc _ _ _ _ _ x y => Some (x, y)
             | Close => None
             end) p.

Definition inBounds (b : Bounds.t) (pt : Point) : Prop :=
  Bounds.x b <= pt.1 <= Bounds.x b + Bounds.width b
  ∧ Bounds.y b <= pt.2 <= Bounds.y b + Bounds.height b.

(** A cell is in the grid. *)
Definition inGrid (row col : Z) : Prop := 0 <= row < ROWS ∧ 0 <= col < COLS.

(** A valid edge code. *)
Definition isEdgeCode (code : Z) : Prop := code = FLAT ∨ code = TAB ∨ code = BLANK.

(* ===================================================================== *)
(** ** The layout as the documentation states it *)
(* ===================================================================== *)

(** Two positions are at least [bound] apart: the bound against
    [Math.hypot] of the coordinate differences, earlier position minus
    later one. *)
Definition atLeastApart (hypot : float → float → float) (bound : float)
           (p q : Pos.t) : Prop :=
  (bound <=? hypot (Pos.x p - Pos.x q) (Pos.y p - Pos.y q))%float = true.

(** The visual size of a piece and the minimum separation, 1.1 times it. *)
Definition pieceVisualSizeOf (win : Window.t) : float :=
  ((if Window.innerWidth win <=? 700 then 86 else 96) * svgScale)%float.

Definition minSeparation (win : Window.t) : float := (pieceVisualSizeOf win * 1.1)%float.

(** A candidate is at least [bound] from every position accepted so far. *)
Definition clearOfAll (hypot : float → float → float) (bound : float)
           (earlier : list Pos.t) (candidate : Pos.t) : Prop :=
  ∀ p, p ∈ earlier → atLeastApart hypot bound p candidate.

(** Attempt [k] is within the budget and its candidate is the first that
    is at least [bound] from every position accepted so far. *)
Definition firstFarCandidate (random : N → float) (hypot : float → float → float)
           (f : Frame.t) (bound : float) (earlier : list Pos.t) (n : N) (k : nat)
  : Prop :=
  (k < maxAttempts)%nat
  ∧ clearOfAll hypot bound earlier (candidateAt random f (attemptDraw n k))
  ∧ ∀ j, (j < k)%nat →
         ¬ clearOfAll hypot bound earlier (candidateAt random f (attemptDraw n j)).

(** Every candidate of the budget fails to be [bound] away from some
    position accepted so far. *)
Definition allTooClose (random : N → float) (hypot : float → float → float)
           (f : Frame.t) (bound : float) (earlier : list Pos.t) (n : N) : Prop :=
  ∀ j, (j < maxAttempts)%nat →
       ∃ p, p ∈ earlier
            ∧ ¬ atLeastApart hypot bound p (candidateAt random f (attemptDraw n j)).

(** The valid range of an axis: the extent of the viewport inset by the
    padding plus half the visual size of a piece at both ends, relative to
    the anchor (the centre of the stage), in the order in which the
    program does the arithmetic. *)
Definition scatterPadding : float := 48%float.

Definition anchorX (rect : Rect.t) : float := (Rect.left rect + Rect.width rect / 2)%float.
Definition anchorY (rect : Rect.t) : float := (Rect.top rect + Rect.height rect / 2)%float.

Definition rangeMin (win : Window.t) (anchor : float) : float :=
  (scatterPadding + pieceVisualSizeOf win / 2 - anchor)%float.

Definition rangeMax (win : Window.t) (extent anchor : float) : float :=
  (extent - scatterPadding - pieceVisualSizeOf win / 2 - anchor)%float.

(** A number proper (not NaN), and a finite one. *)
Definition isNumber (x : float) : Prop := (x =? x)%float = true.
Definition finiteNumber (x : float) : Prop := (abs x <? infinity)%float = true.

Definition sfFinite (s : spec_float) : Prop :=
  match s with
  | S754_zero _ | S754_finite _ _ _ => True
  | _ => False
  end.

(* ===================================================================== *)
(** ** Edge codes: facts *)
(* ===================================================================== *)

Lemma tab_cases (r c : Z) : tab r c = TAB ∨ tab r c = BLANK.
Proof. unfold tab, TAB, BLANK. destruct (Z.rem (r + c) 2 =? 0); auto. Qed.

Lemma complementary_opp_r (t : Z) :
  t = TAB ∨ t = BLANK → complementary t (- t).
Proof. unfold complementary, TAB, BLANK. intros [-> | ->]; [left | right]; split; reflexivity. Qed.

Lemma complementary_opp_l (t : Z) :
  t = TAB ∨ t = BLANK → complementary (- t) t.
Proof. unfold complementary, TAB, BLANK. intros [-> | ->]; [right | left]; split; reflexivity. Qed.

Lemma opp_tab_cases (r c : Z) : - tab r c = TAB ∨ - tab r c = BLANK.
Proof. unfold TAB, BLANK. destruct (tab_cases r c) as [-> | ->]; [right | left]; reflexivity. Qed.

(** C1. Across every shared edge of the grid the two codes are one TAB and
    one BLANK: the right edge of (r,c) against the left edge of (r,c+1),
    and the bottom edge of (r,c) against the top edge of (r+1,c). *)
Theorem getEdges_complementary :
  (∀ r c : Z, 0 <= r < ROWS → 0 <= c → c + 1 < COLS →
     complementary (Edges.right (getEdges r c)) (Edges.left (getEdges r (c + 1))))
  ∧ (∀ r c : Z, 0 <= r → r + 1 < ROWS → 0 <= c < COLS →
     complementary (Edges.bottom (getEdges r c)) (Edges.top (getEdges (r + 1) c))).
Proof.
  split; intros r c Hr Hr' Hc; unfold getEdges; cbn [Edges.right Edges.left Edges.bottom Edges.top].
  - destruct (Z.eqb_spec c (COLS - 1)) as [E | _]; [lia |].
    destruct (Z.eqb_spec (c + 1) 0) as [E | _]; [lia |].
    replace (c + 1 - 1) with c by lia.
    apply complementary_opp_r, tab_cases.
  - destruct (Z.eqb_spec r (ROWS - 1)) as [E | _]; [lia |].
    destruct (Z.eqb_spec (r + 1) 0) as [E | _]; [lia |].
    replace (r + 1 - 1) with r by lia.
    apply complementary_opp_l, tab_cases.
Qed.

Lemma getEdges_complementary_witness :
  complementary (Edges.right (getEdges 1 2)) (Edges.left (getEdges 1 (2 + 1)))
  ∧ complementary (Edges.bottom (getEdges 1 2)) (Edges.top (getEdges (1 + 1) 2)).
Proof.
  split.
  - apply (proj1 getEdges_complementary 1 2); unfold ROWS, COLS; lia.
  - apply (proj2 getEdges_complementary 1 2); unfold ROWS, COLS; lia.
Defined.

(** C4. In the grid, an edge on the border of the grid is FLAT (row 0:
    top; last row: bottom; column 0: left; last column: right), and every
    other edge is TAB or BLANK, never FLAT. *)
Theorem getEdges_border_flat (row col : Z) :
  0 <= row < ROWS → 0 <= col < COLS →
  edgeCodeFits (row = 0) (Edges.top (getEdges row col))
  ∧ edgeCodeFits (col = COLS - 1) (Edges.right (getEdges row col))
  ∧ edgeCodeFits (row = ROWS - 1) (Edges.bottom (getEdges row col))
  ∧ edgeCodeFits (col = 0) (Edges.left (getEdges row col)).
Proof.
  intros Hr Hc. unfold getEdges, edgeCodeFits, FLAT.
  cbn [Edges.right Edges.left Edges.bottom Edges.top].
  repeat split.
  - destruct (Z.eqb_spec row 0); [left | right]; split; auto using tab_cases.
  - destruct (Z.eqb_spec col (COLS - 1)); [left | right]; split; auto using tab_cases.
  - destruct (Z.eqb_spec row (ROWS - 1)); [left | right]; split; auto using opp_tab_cases.
  - destruct (Z.eqb_spec col 0); [left | right]; split; auto using opp_tab_cases.
Qed.

Lemma getEdges_border_flat_witness :
  edgeCodeFits (0 = 0) (Edges.top (getEdges 0 1))
  ∧ edgeCodeFits (1 = COLS - 1) (Edges.right (getEdges 0 1))
  ∧ edgeCodeFits (0 = ROWS - 1) (Edges.bottom (getEdges 0 1))
  ∧ edgeCodeFits (1 = 0) (Edges.left (getEdges 0 1)).
Proof. apply (getEdges_border_flat 0 1); unfold ROWS, COLS; lia. Defined.

Lemma edgeCodeFits_never_flat_inside (onBorder : Prop) (code : Z) :
  edgeCodeFits onBorder code → ¬ onBorder → code ≠ FLAT.
Proof.
  unfold edgeCodeFits, FLAT, TAB, BLANK.
  intros [[H _] | [_ [-> | ->]]] Hn; [contradiction | discriminate | discriminate].
Qed.

(* ===================================================================== *)
(** ** Piece outlines: facts *)
(* ===================================================================== *)

Example pathString_corner :
  pathString (buildPiecePath (getEdges 0 0))
  = "M 0 0 L 100 0 L 100 28 A 22 22 0 0 0 100 72 L 100 100 L 72 100 A 22 22 0 0 0 28 100 L 0 100 L 0 0 Z".
Proof. vm_compute. reflexivity. Qed.

Example pathString_inner :
  pathString (buildPiecePath (getEdges 1 2))
  = "M 0 0 L 28 0 A 22 22 0 0 1 72 0 L 100 0 L 100 28 A 22 22 0 0 1 100 72 L 100 100 L 72 100 A 22 22 0 0 1 28 100 L 0 100 L 0 72 A 22 22 0 0 1 0 28 L 0 0 Z".
Proof. vm_compute. reflexivity. Qed.

Lemma runPen_app (pen : Pen) (p q : list Cmd) :
  runPen pen (p ++ q) = runPen (runPen pen p) q.
Proof. unfold runPen. apply fold_left_app. Qed.

Lemma arcApexes_app (pen : Pen) (p q : list Cmd) :
  arcApexes pen (p ++ q) = arcApexes pen p ++ arcApexes (runPen pen p) q.
Proof.
  revert pen. induction p as [| c p IH]; intros pen; [reflexivity |].
  cbn [app arcApexes]. rewrite IH, <- app_assoc. reflexivity.
Qed.

(** Each edge function leaves the pen on the next corner, whatever the
    code and wherever the subpath began. *)
Lemma edgePathTop_end (pen : Pen) (edge : Z) :
  runPen pen (edgePathTop edge) = mkPen (100, 0) (subpathStart pen).
Proof. unfold edgePathTop. destruct (edge =? 0); reflexivity. Qed.

Lemma edgePathRight_end (pen : Pen) (edge : Z) :
  runPen pen (edgePathRight edge) = mkPen (100, 100) (subpathStart pen).
Proof. unfold edgePathRight. destruct (edge =? 0); reflexivity. Qed.

Lemma edgePathBottom_end (pen : Pen) (edge : Z) :
  runPen pen (edgePathBottom edge) = mkPen (0, 100) (subpathStart pen).
Proof. unfold edgePathBottom. destruct (edge =? 0); reflexivity. Qed.

Lemma edgePathLeft_end (pen : Pen) (edge : Z) :
  runPen pen (edgePathLeft edge) = mkPen (0, 0) (subpathStart pen).
Proof. unfold edgePathLeft. destruct (edge =? 0); reflexivity. Qed.

(** The arcs of an edge do not depend on where the subpath began. *)
Lemma arcApexes_edge_pen (edgePath : Z → list Cmd) (edge : Z) (pen : Pen) :
  edgePath = edgePathTop ∨ edgePath = edgePathRight
  ∨ edgePath = edgePathBottom ∨ edgePath = edgePathLeft →
  arcApexes pen (edgePath edge) = arcApexes (penAt (current pen)) (edgePath edge).
Proof.
  intros [-> | [-> | [-> | ->]]];
    unfold edgePathTop, edgePathRight, edgePathBottom, edgePathLeft;
    destruct (edge =? 0); reflexivity.
Qed.

Lemma buildPiecePath_arcs (edges : Edges.t) :
  arcApexes (penAt (0, 0)) (buildPiecePath edges)
  = topArc (Edges.top edges) ++ rightArc (Edges.right edges)
      ++ bottomArc (Edges.bottom edges) ++ leftArc (Edges.left edges).
Proof.
  unfold buildPiecePath, topArc, rightArc, bottomArc, leftArc, arcsFrom.
  cbn [app arcApexes stepPen].
  rewrite !arcApexes_app.
  rewrite edgePathTop_end, edgePathRight_end, edgePathBottom_end, edgePathLeft_end.
  cbn [arcApexes app subpathStart].
  rewrite app_nil_r.
  rewrite (arcApexes_edge_pen edgePathTop) by auto.
  rewrite (arcApexes_edge_pen edgePathRight) by auto.
  rewrite (arcApexes_edge_pen edgePathBottom) by auto.
  rewrite (arcApexes_edge_pen edgePathLeft) by auto.
  reflexivity.
Qed.

(** C5. The outline of any edge set is a closed path: it starts at the
    corner (0,0), the last edge brings the pen back to (0,0), and the path
    ends with the closing command. *)
Theorem buildPiecePath_closed (edges : Edges.t) :
  startPoint (buildPiecePath edges) = Some (0, 0)
  ∧ endPoint (buildPiecePath edges) = (0, 0)
  ∧ (∃ body, buildPiecePath edges = body ++ [Close] ∧ endPoint body = (0, 0)).
Proof.
  split; [reflexivity |]. split.
  - unfold endPoint, buildPiecePath. rewrite !runPen_app.
    rewrite edgePathTop_end, edgePathRight_end, edgePathBottom_end, edgePathLeft_end.
    reflexivity.
  - exists ([MoveTo 0 0] ++ edgePathTop (Edges.top edges)
              ++ edgePathRight (Edges.right edges)
              ++ edgePathBottom (Edges.bottom edges)
              ++ edgePathLeft (Edges.left edges)).
    split.
    + unfold buildPiecePath. rewrite <- !app_assoc. reflexivity.
    + unfold endPoint. rewrite !runPen_app.
      rewrite edgePathTop_end, edgePathRight_end, edgePathBottom_end, edgePathLeft_end.
      reflexivity.
Qed.

Lemma bulgesAsNamed_top : bulgesAsNamed topArc.
Proof.
  split; [exists (50, -22) | exists (50, 22)]; (split; [reflexivity |]).
  - unfold outsideCell; cbn; lia.
  - unfold insideCell; cbn; lia.
Qed.

Lemma bulgesAsNamed_bottom : bulgesAsNamed bottomArc.
Proof.
  split; [exists (50, 122) | exists (50, 78)]; (split; [reflexivity |]).
  - unfold outsideCell; cbn; lia.
  - unfold insideCell; cbn; lia.
Qed.

Lemma bulgesInverted_right : bulgesInverted rightArc.
Proof.
  split; [exists (78, 50) | exists (122, 50)]; (split; [reflexivity |]).
  - unfold insideCell; cbn; lia.
  - unfold outsideCell; cbn; lia.
Qed.

Lemma bulgesInverted_left : bulgesInverted leftArc.
Proof.
  split; [exists (22, 50) | exists (-22, 50)]; (split; [reflexivity |]).
  - unfold insideCell; cbn; lia.
  - unfold outsideCell; cbn; lia.
Qed.

(** The two sides of a shared edge draw the same half circle: the arc of a
    right edge with code [c] is the arc of the neighbour's left edge with
    code [-c], one cell to the right; likewise bottom against top. *)
Lemma shared_edge_same_arc (c : Z) :
  c = TAB ∨ c = BLANK →
  rightArc c = shiftPoint 100 0 <$> leftArc (- c)
  ∧ bottomArc c = shiftPoint 0 100 <$> topArc (- c).
Proof. intros [-> | ->]; split; reflexivity. Qed.

(** What the code draws.  The arcs of an outline are those of its four
    edges, drawn from the corners in turn.  On the top and bottom edges
    code 1 (TAB) bulges out of the cell and code -1 (BLANK) carves into
    it; on the right and left edges it is the other way round: code 1
    carves in and code -1 bulges out. *)
Theorem arc_direction_by_edge :
  (∀ edges : Edges.t,
     arcApexes (penAt (0, 0)) (buildPiecePath edges)
     = topArc (Edges.top edges) ++ rightArc (Edges.right edges)
         ++ bottomArc (Edges.bottom edges) ++ leftArc (Edges.left edges))
  ∧ bulgesAsNamed topArc ∧ bulgesInverted rightArc
  ∧ bulgesAsNamed bottomArc ∧ bulgesInverted leftArc.
Proof.
  split; [exact buildPiecePath_arcs |].
  auto using bulgesAsNamed_top, bulgesInverted_right, bulgesAsNamed_bottom,
    bulgesInverted_left.
Qed.

(** The arc of a right edge with code 1 passes through (78,50), inside
    the cell; so do not all four edges bulge as their codes are named. *)
Lemma right_tab_carves_in :
  arcApexes (penAt (0, 0)) (buildPiecePath (Edges.mk TAB TAB TAB TAB))
  = [Some (50, -22); Some (78, 50); Some (50, 122); Some (22, 50)]
  ∧ ¬ bulgesAsNamed rightArc ∧ ¬ bulgesAsNamed leftArc.
Proof.
  split; [reflexivity |].
  split; intros [[p [E O]] _]; vm_compute in E; injection E as <-;
    unfold outsideCell in O; cbn in O; lia.
Qed.

(* ===================================================================== *)
(** ** Image tiling: facts *)
(* ===================================================================== *)

Lemma getPieceCoords_of_cell (row col : Z) :
  0 <= col < COLS → 0 <= row →
  getPieceCoords (row * COLS + col) = Coords.mk row col.
Proof.
  intros Hc Hr. unfold getPieceCoords. f_equal.
  - rewrite Z.add_comm, Z.div_add by (unfold COLS; lia).
    rewrite Z.div_small by lia. lia.
  - rewrite Z.rem_mod_nonneg by (unfold COLS in *; nia).
    rewrite Z.add_comm, Z.mod_add by (unfold COLS; lia).
    apply Z.mod_small; lia.
Qed.

(** C6. For a piece whose slot lies in the grid, with row = floor(slot /
    COLS) and col = slot mod COLS (so that slot = row * COLS + col), the
    tile origin is (-col * 100, -row * 100) and the tile measures
    100 * COLS on each axis. *)
Theorem imagePattern_origin (piece : Piece.t) :
  0 <= Piece.slot piece < ROWS * COLS →
  ∃ row col : Z,
    row = Piece.slot piece / COLS ∧ col = Piece.slot piece mod COLS
    ∧ 0 <= row < ROWS ∧ 0 <= col < COLS
    ∧ Piece.slot piece = row * COLS + col
    ∧ getPieceCoords (Piece.slot piece) = Coords.mk row col
    ∧ Pattern.x (imagePattern piece) = - col * 100
    ∧ Pattern.y (imagePattern piece) = - row * 100
    ∧ Pattern.width (imagePattern piece) = 100 * COLS
    ∧ Pattern.height (imagePattern piece) = 100 * COLS.
Proof.
  intros Hs. set (s := Piece.slot piece) in *.
  assert (HC : 0 < COLS) by (unfold COLS; lia).
  exists (s / COLS), (s mod COLS).
  pose proof (Z.mod_pos_bound s COLS HC) as Hm.
  pose proof (Z.div_mod s COLS ltac:(lia)) as Hd.
  assert (Hrow : 0 <= s / COLS < ROWS).
  { split; [apply Z.div_pos; lia |].
    apply Z.div_lt_upper_bound; lia. }
  assert (Hslot : s = s / COLS * COLS + s mod COLS) by lia.
  assert (Hco : getPieceCoords s = Coords.mk (s / COLS) (s mod COLS)).
  { rewrite Hslot at 1. apply getPieceCoords_of_cell; lia. }
  repeat (split; [first [reflexivity | assumption | lia] |]).
  unfold imagePattern. fold s. rewrite Hco. cbn. repeat split; reflexivity.
Qed.

Lemma imagePattern_origin_witness :
  ∃ row col : Z,
    row = 6 / COLS ∧ col = 6 mod COLS
    ∧ 0 <= row < ROWS ∧ 0 <= col < COLS
    ∧ 6 = row * COLS + col
    ∧ getPieceCoords 6 = Coords.mk row col
    ∧ Pattern.x (imagePattern (Piece.mk "p7" "7" 6)) = - col * 100
    ∧ Pattern.y (imagePattern (Piece.mk "p7" "7" 6)) = - row * 100
    ∧ Pattern.width (imagePattern (Piece.mk "p7" "7" 6)) = 100 * COLS
    ∧ Pattern.height (imagePattern (Piece.mk "p7" "7" 6)) = 100 * COLS.
Proof.
  apply (imagePattern_origin (Piece.mk "p7" "7" 6)).
  cbn. unfold ROWS, COLS. lia.
Defined.

Example imagePattern_p7 :
  imagePattern (Piece.mk "p7" "7" 6) = Pattern.mk "img-p7" 400 400 (-200) (-100).
Proof. reflexivity. Qed.

(* ===================================================================== *)
(** ** Placement state: facts *)
(* ===================================================================== *)

Lemma fold_insert_lookup {V : Type} (entries : list (string * V))
      (m : gmap string V) (k : string) (v : V) :
  NoDup entries.*1 →
  fold_left (λ m kv, <[kv.1 := kv.2]> m) entries m !! k = Some v
  ↔ (k, v) ∈ entries ∨ ((k ∉ entries.*1) ∧ m !! k = Some v).
Proof.
  revert m. induction entries as [| [k' v'] entries IH]; intros m Hnd.
  - cbn. split; [intros H; right; split; [apply not_elem_of_nil | exact H] |].
    intros [H | [_ H]]; [by apply elem_of_nil in H | exact H].
  - cbn [fold_left fmap list_fmap fst snd] in *.
    apply NoDup_cons in Hnd as [Hk' Hnd].
    rewrite (IH _ Hnd). rewrite elem_of_cons, not_elem_of_cons. split.
    + intros [H | [Hn H]]; [left; right; exact H |].
      destruct (decide (k' = k)) as [-> | Hne].
      * rewrite lookup_insert_eq in H. injection H as ->. left; left; reflexivity.
      * rewrite lookup_insert_ne in H by exact Hne. right. repeat split; auto.
    + intros [[H | H] | [[Hne Hn] H]].
      * injection H as -> ->. right. split; [exact Hk' | apply lookup_insert_eq].
      * left; exact H.
      * right. split; [exact Hn |]. rewrite lookup_insert_ne by auto. exact H.
Qed.

Lemma fromEntries_lookup {V : Type} (entries : list (string * V)) (k : string) (v : V) :
  NoDup entries.*1 → fromEntries entries !! k = Some v ↔ (k, v) ∈ entries.
Proof.
  intros Hnd. unfold fromEntries. rewrite (fold_insert_lookup _ _ _ _ Hnd).
  rewrite lookup_empty. split; [intros [H | [_ H]]; [exact H | discriminate] | auto].
Qed.

Lemma pieces_ids_NoDup : NoDup (Piece.id <$> pieces).
Proof. apply (bool_decide_unpack _). vm_compute. reflexivity. Qed.

Lemma piecesById_lookup (id : string) (piece : Piece.t) :
  piecesById !! id = Some piece ↔ piece ∈ pieces ∧ Piece.id piece = id.
Proof.
  unfold piecesById. rewrite fromEntries_lookup.
  - rewrite list_elem_of_fmap. split.
    + intros [p [E Hp]]. injection E as -> ->. auto.
    + intros [Hp <-]. eauto.
  - rewrite <- list_fmap_compose. exact pieces_ids_NoDup.
Qed.

Lemma truthy_isPlaced (placed : gmap string bool) (id : string) :
  truthy (placed !! id) = true ↔ isPlaced placed id.
Proof.
  unfold truthy, isPlaced. destruct (placed !! id) as [[|] |]; cbn; split;
    first [reflexivity | discriminate].
Qed.

Lemma no_piece_without_id (piece : Piece.t) : piece ∈ pieces → Piece.id piece ≠ "".
Proof.
  intros Hp E. pose proof (proj2 (piecesById_lookup "" piece) (conj Hp E)) as H.
  vm_compute in H. discriminate.
Qed.

Lemma handleDrop_accepts (placed : gmap string bool) (id : string) (slotIndex : Z) :
  homeOf id slotIndex → ¬ isPlaced placed id →
  handleDrop placed id slotIndex = <[id := true]> placed.
Proof.
  intros (piece & Hp & Hid & Hslot) Hnot. unfold handleDrop.
  destruct (String.eqb_spec id "") as [E | _].
  { exfalso. apply (no_piece_without_id piece Hp). congruence. }
  destruct (truthy (placed !! id)) eqn:Ht.
  { exfalso. apply Hnot, truthy_isPlaced, Ht. }
  cbn [orb]. rewrite (proj2 (piecesById_lookup id piece)) by auto.
  rewrite Hslot, Z.eqb_refl. reflexivity.
Qed.

Lemma handleDrop_rejects (placed : gmap string bool) (id : string) (slotIndex : Z) :
  ¬ (homeOf id slotIndex ∧ ¬ isPlaced placed id) →
  handleDrop placed id slotIndex = placed.
Proof.
  intros Hno. unfold handleDrop.
  destruct (String.eqb id ""); [reflexivity |].
  destruct (truthy (placed !! id)) eqn:Ht; [reflexivity |]. cbn [orb].
  destruct (piecesById !! id) as [piece |] eqn:Hl; [| reflexivity].
  destruct (Z.eqb_spec (Piece.slot piece) slotIndex) as [E | _]; [| reflexivity].
  exfalso. apply Hno. apply piecesById_lookup in Hl as [Hp Hid]. split.
  - exists piece. auto.
  - intros Hpl. apply truthy_isPlaced in Hpl. congruence.
Qed.

Lemma homeOf_dec (id : string) (slotIndex : Z) :
  homeOf id slotIndex ∨ ¬ homeOf id slotIndex.
Proof.
  destruct (piecesById !! id) as [piece |] eqn:Hl.
  - apply piecesById_lookup in Hl as [Hp Hid].
    destruct (decide (Piece.slot piece = slotIndex)) as [E | Hne].
    + left. exists piece. auto.
    + right. intros (q & Hq & Hqid & Hqs). apply Hne.
      assert (piecesById !! id = Some q) as H1 by (apply piecesById_lookup; auto).
      assert (piecesById !! id = Some piece) as H2 by (apply piecesById_lookup; auto).
      congruence.
  - right. intros (q & Hq & Hqid & _).
    assert (piecesById !! id = Some q) as H1 by (apply piecesById_lookup; auto).
    congruence.
Qed.

(** C2. A drop of [id] on [slotIndex] marks the piece placed exactly when
    [id] names a piece, that piece is not placed yet, and [slotIndex] is
    its home slot; in every other case the whole state is returned as it
    was.  Dropping the same piece again changes nothing more. *)
Theorem handleDrop_places_iff (placed : gmap string bool) (id : string) (slotIndex : Z) :
  ((homeOf id slotIndex ∧ ¬ isPlaced placed id
    ∧ handleDrop placed id slotIndex = <[id := true]> placed
    ∧ isPlaced (handleDrop placed id slotIndex) id)
   ∨ (¬ (homeOf id slotIndex ∧ ¬ isPlaced placed id)
      ∧ handleDrop placed id slotIndex = placed))
  ∧ handleDrop (handleDrop placed id slotIndex) id slotIndex
    = handleDrop placed id slotIndex.
Proof.
  assert (Hcase : (homeOf id slotIndex ∧ ¬ isPlaced placed id)
                  ∨ ¬ (homeOf id slotIndex ∧ ¬ isPlaced placed id)).
  { destruct (homeOf_dec id slotIndex) as [Hh | Hh]; [| right; tauto].
    unfold isPlaced. destruct (decide (placed !! id = Some true)); [right | left]; tauto. }
  destruct Hcase as [[Hh Hn] | Hno].
  - pose proof (handleDrop_accepts placed id slotIndex Hh Hn) as E.
    assert (Hnow : isPlaced (<[id := true]> placed) id) by apply lookup_insert_eq.
    split.
    + left. rewrite E. auto.
    + rewrite E. apply handleDrop_rejects. tauto.
  - pose proof (handleDrop_rejects placed id slotIndex Hno) as E.
    split; [right; auto |]. rewrite E. exact E.
Qed.

(** C10. A drop changes at most the flag of the piece it names: every
    other key of the state reads after the drop what it read before. *)
Theorem handleDrop_frame (placed : gmap string bool) (id other : string) (slotIndex : Z) :
  other ≠ id → handleDrop placed id slotIndex !! other = placed !! other.
Proof.
  intros Hne. unfold handleDrop.
  destruct (String.eqb id "" || truthy (placed !! id)); [reflexivity |].
  destruct (piecesById !! id) as [piece |]; [| reflexivity].
  destruct (negb (Piece.slot piece =? slotIndex)); [reflexivity |].
  apply lookup_insert_ne. auto.
Qed.

Lemma handleDrop_frame_witness :
  handleDrop initialPlaced "p7" 6 !! "p3" = initialPlaced !! "p3".
Proof. apply (handleDrop_frame initialPlaced "p7" "p3" 6). discriminate. Defined.

(** The scenario of the documentation: piece p7 lives in slot 6. *)
Example drop_p7_home : handleDrop initialPlaced "p7" 6 !! "p7" = Some true.
Proof. vm_compute. reflexivity. Qed.

Example drop_p7_elsewhere : handleDrop initialPlaced "p7" 2 = initialPlaced.
Proof.
  apply handleDrop_rejects. intros [(piece & Hp & Hid & Hs) _].
  assert (piecesById !! "p7" = Some piece) as H by (apply piecesById_lookup; auto).
  vm_compute in H. injection H as <-. discriminate.
Qed.

Example all_home_drops_complete :
  isComplete initialPlaced = false
  ∧ isComplete (fold_left (λ placed piece,
                             handleDrop placed (Piece.id piece) (Piece.slot piece))
                          pieces initialPlaced) = true.
Proof. vm_compute. split; reflexivity. Qed.

Example drop_unknown_text : handleDrop initialPlaced "hello" 6 = initialPlaced.
Proof.
  apply handleDrop_rejects. intros [(piece & Hp & Hid & Hs) _].
  assert (piecesById !! "hello" = Some piece) as H by (apply piecesById_lookup; auto).
  vm_compute in H. discriminate.
Qed.

(* ===================================================================== *)
(** ** Scatter layout: facts *)
(* ===================================================================== *)

Lemma fold_insert_size {V : Type} (entries : list (string * V)) (m : gmap string V) :
  NoDup entries.*1 → (∀ k, k ∈ entries.*1 → m !! k = None) →
  size (fold_left (λ m kv, <[kv.1 := kv.2]> m) entries m)
  = (size m + length entries)%nat.
Proof.
  revert m. induction entries as [| [k v] entries IH]; intros m Hnd Hfresh.
  - cbn. lia.
  - cbn [fold_left fmap list_fmap fst snd length] in *.
    apply NoDup_cons in Hnd as [Hk Hnd].
    rewrite IH; [| exact Hnd |].
    + rewrite map_size_insert_None by (apply Hfresh; left). lia.
    + intros k' Hk'. rewrite lookup_insert_ne by (intros ->; contradiction).
      apply Hfresh. right. exact Hk'.
Qed.

Lemma fromEntries_size {V : Type} (entries : list (string * V)) :
  NoDup entries.*1 → size (fromEntries entries) = length entries.
Proof.
  intros Hnd. unfold fromEntries. rewrite fold_insert_size.
  - rewrite map_size_empty. lia.
  - exact Hnd.
  - intros k _. apply lookup_empty.
Qed.

Lemma entriesFrom_total (positions : list Pos.t) (ps : list Piece.t) (index : nat) :
  (index + length ps <= length positions)%nat →
  ∃ entries,
    entriesFrom positions index ps = Some entries
    ∧ entries.*1 = Piece.id <$> ps
    ∧ ∀ (i : nat) (piece : Piece.t), ps !! i = Some piece →
        ∃ pos, positions !! (index + i)%nat = Some pos
               ∧ (Piece.id piece, entryOf pos) ∈ entries.
Proof.
  revert index. induction ps as [| piece ps IH]; intros index Hlen.
  - exists []. split; [reflexivity |]. split; [reflexivity |].
    intros i q H. discriminate.
  - cbn [length] in Hlen. cbn [entriesFrom].
    destruct (lookup_lt_is_Some_2 positions index ltac:(lia)) as [pos Hpos].
    rewrite Hpos.
    destruct (IH (S index) ltac:(lia)) as (rest & -> & Hkeys & Hall).
    exists ((Piece.id piece, entryOf pos) :: rest). split; [reflexivity |]. split.
    + cbn. rewrite Hkeys. reflexivity.
    + intros [| i] q Hq.
      * injection Hq as <-. exists pos. rewrite Nat.add_0_r. split; [exact Hpos | left].
      * destruct (Hall i q Hq) as (pos' & Hl & Hin). exists pos'.
        replace (index + S i)%nat with (S index + i)%nat by lia.
        split; [exact Hl | right; exact Hin].
Qed.

Section ScatterFacts.

Variable random : N → float.
Variable hypot : float → float → float.

Lemma sampleCandidate_run (f : Frame.t) (n : N) :
  sampleCandidate random f n = (candidateAt random f n, n + 3)%N.
Proof.
  unfold candidateAt. rewrite (surjective_pairing (sampleCandidate random f n)) at 1.
  f_equal. cbn. lia.
Qed.

Lemma attemptLoop_step (f : Frame.t) (budget : nat) (positions : list Pos.t) (n : N) :
  attemptLoop random hypot f (S budget) positions n
  = if clear hypot f positions (candidateAt random f n)
    then ((positions ++ [candidateAt random f n], true), (n + 3)%N)
    else attemptLoop random hypot f budget positions (n + 3)%N.
Proof.
  cbn [attemptLoop]. unfold bind at 1. cbv zeta.
  rewrite sampleCandidate_run. cbn [fst snd].
  destruct (clear hypot f positions (candidateAt random f n)); reflexivity.
Qed.

(** The loop stops at the first clear candidate, or runs the budget out
    and leaves the array as it was. *)
Lemma attemptLoop_cases (f : Frame.t) (budget : nat) (positions : list Pos.t) (n : N) :
  (∃ k, (k < budget)%nat
        ∧ clear hypot f positions (candidateAt random f (attemptDraw n k)) = true
        ∧ (∀ j, (j < k)%nat →
             clear hypot f positions (candidateAt random f (attemptDraw n j)) = false)
        ∧ attemptLoop random hypot f budget positions n
          = ((positions ++ [candidateAt random f (attemptDraw n k)], true),
             attemptDraw n (S k)))
  ∨ ((∀ j, (j < budget)%nat →
        clear hypot f positions (candidateAt random f (attemptDraw n j)) = false)
     ∧ attemptLoop random hypot f budget positions n
       = ((positions, false), attemptDraw n budget)).
Proof.
  revert n. induction budget as [| budget IH]; intros n.
  - right. split; [intros j Hj; lia |].
    cbn. unfold ret, attemptDraw. f_equal. lia.
  - rewrite attemptLoop_step.
    destruct (clear hypot f positions (candidateAt random f n)) eqn:Hc.
    + left. exists 0%nat.
      assert (E0 : attemptDraw n 0 = n) by (unfold attemptDraw; lia).
      assert (E1 : attemptDraw n 1 = (n + 3)%N) by (unfold attemptDraw; lia).
      rewrite E0, E1. repeat split; [lia | exact Hc | intros j Hj; lia].
    + assert (Eshift : ∀ k, attemptDraw (n + 3) k = attemptDraw n (S k))
        by (intros k; unfold attemptDraw; lia).
      destruct (IH (n + 3)%N) as [(k & Hk & Hclear & Hbefore & Hrun) | [Hnone Hrun]].
      * left. exists (S k). rewrite <- !Eshift.
        repeat split; [lia | exact Hclear | | exact Hrun].
        intros [| j] Hj.
        -- replace (attemptDraw n 0) with n by (unfold attemptDraw; lia). exact Hc.
        -- rewrite <- Eshift. apply Hbefore. lia.
      * right. rewrite <- Eshift. split; [| exact Hrun].
        intros [| j] Hj.
        -- replace (attemptDraw n 0) with n by (unfold attemptDraw; lia). exact Hc.
        -- rewrite <- Eshift. apply Hnone. lia.
Qed.

Lemma placeOne_unfold (f : Frame.t) (positions : list Pos.t) (n : N) :
  placeOne random hypot f positions n
  = let r := attemptLoop random hypot f maxAttempts positions n in
    if negb r.1.2
    then ((r.1.1 ++ [candidateAt random f r.2], r.1.2), (r.2 + 3)%N)
    else r.
Proof.
  unfold placeOne, bind. cbv zeta.
  destruct (attemptLoop random hypot f maxAttempts positions n) as [[ps b] n'].
  cbn [fst snd]. destruct b; cbn [negb].
  - reflexivity.
  - rewrite sampleCandidate_run. reflexivity.
Qed.

(** What the body of the loop over the pieces does, in its two cases. *)
Lemma placeOne_cases (f : Frame.t) (positions : list Pos.t) (n : N) :
  (∃ k, firstClear random hypot f positions n k
        ∧ placeOne random hypot f positions n
          = ((positions ++ [candidateAt random f (attemptDraw n k)], true),
             attemptDraw n (S k)))
  ∨ (budgetExhausted random hypot f positions n
     ∧ placeOne random hypot f positions n
       = ((positions ++ [candidateAt random f (attemptDraw n maxAttempts)], false),
          attemptDraw n (S maxAttempts))).
Proof.
  rewrite placeOne_unfold. cbv zeta.
  destruct (attemptLoop_cases f maxAttempts positions n)
    as [(k & Hk & Hclear & Hbefore & ->) | [Hnone ->]]; cbn [fst snd negb].
  - left. exists k. split; [| reflexivity]. repeat split; assumption.
  - right. split; [exact Hnone |]. f_equal. unfold attemptDraw. lia.
Qed.

Lemma placeOne_length (f : Frame.t) (positions : list Pos.t) (n : N) :
  length (placeOne random hypot f positions n).1.1 = S (length positions).
Proof.
  destruct (placeOne_cases f positions n) as [(k & _ & ->) | [_ ->]];
    cbn [fst snd]; rewrite length_app; cbn; lia.
Qed.

Lemma forEachPiece_step (f : Frame.t) (piece : Piece.t) (ps : list Piece.t)
      (acc : list Pos.t * list bool) (n : N) :
  forEachPiece random hypot f (piece :: ps) acc n
  = forEachPiece random hypot f ps
      ((placeOne random hypot f acc.1 n).1.1,
       acc.2 ++ [(placeOne random hypot f acc.1 n).1.2])
      (placeOne random hypot f acc.1 n).2.
Proof. reflexivity. Qed.

Lemma forEachPiece_length (f : Frame.t) (ps : list Piece.t)
      (acc : list Pos.t * list bool) (n : N) :
  length (forEachPiece random hypot f ps acc n).1.1 = (length acc.1 + length ps)%nat.
Proof.
  revert acc n. induction ps as [| piece ps IH]; intros acc n.
  - cbn. lia.
  - rewrite forEachPiece_step, IH. cbn [fst snd length].
    rewrite placeOne_length. lia.
Qed.

Lemma forEachPiece_flags (f : Frame.t) (ps : list Piece.t)
      (acc : list Pos.t * list bool) (n : N) :
  ∃ rest, (forEachPiece random hypot f ps acc n).1.2 = acc.2 ++ rest
          ∧ length rest = length ps.
Proof.
  revert acc n. induction ps as [| piece ps IH]; intros acc n.
  - exists []. cbn. rewrite app_nil_r. auto.
  - rewrite forEachPiece_step.
    destruct (IH ((placeOne random hypot f acc.1 n).1.1,
                  acc.2 ++ [(placeOne random hypot f acc.1 n).1.2])
                 (placeOne random hypot f acc.1 n).2) as (rest & -> & Hlen).
    cbn [fst snd]. exists ((placeOne random hypot f acc.1 n).1.2 :: rest).
    rewrite <- app_assoc. cbn. auto.
Qed.

Lemma separated_snoc (f : Frame.t) (positions : list Pos.t) (candidate : Pos.t) :
  separated hypot f positions → clear hypot f positions candidate = true →
  separated hypot f (positions ++ [candidate]).
Proof.
  intros Hsep Hclear i j p q Hij Hp Hq.
  assert (Hj : (j < length (positions ++ [candidate]))%nat)
    by (apply lookup_lt_is_Some; eauto).
  rewrite length_app in Hj. cbn in Hj.
  rewrite lookup_app_l in Hp by lia.
  destruct (decide (j < length positions)%nat) as [Hlt | Hge].
  - rewrite lookup_app_l in Hq by lia. exact (Hsep i j p q Hij Hp Hq).
  - rewrite lookup_app_r in Hq by lia.
    replace (j - length positions)%nat with 0%nat in Hq by lia.
    injection Hq as <-.
    unfold clear in Hclear. rewrite forallb_forall in Hclear.
    apply Hclear. apply list_elem_of_In. apply list_elem_of_lookup. eauto.
Qed.

Lemma forEachPiece_separated (f : Frame.t) (ps : list Piece.t)
      (acc : list Pos.t * list bool) (n : N) :
  separated hypot f acc.1 →
  Forall (eq true) (forEachPiece random hypot f ps acc n).1.2 →
  separated hypot f (forEachPiece random hypot f ps acc n).1.1.
Proof.
  revert acc n. induction ps as [| piece ps IH]; intros acc n Hsep Hall.
  - exact Hsep.
  - rewrite forEachPiece_step in *.
    set (r := placeOne random hypot f acc.1 n) in *.
    apply IH; [| exact Hall]. cbn [fst].
    destruct (forEachPiece_flags f ps (r.1.1, acc.2 ++ [r.1.2]) r.2) as (rest & E & _).
    rewrite E in Hall. cbn [snd] in Hall.
    apply Forall_app in Hall as [Hall _]. apply Forall_app in Hall as [_ Hflag].
    apply (proj1 (Forall_singleton _ _)) in Hflag.
    subst r. destruct (placeOne_cases f acc.1 n) as [(k & Hfirst & Hrun) | [_ Hrun]];
      rewrite Hrun in *; cbn [fst snd] in *; [| discriminate].
    apply separated_snoc; [exact Hsep | apply Hfirst].
Qed.

Lemma separated_nil (f : Frame.t) : separated hypot f [].
Proof. intros i j p q _ H. discriminate. Qed.

(** A call with a stage present cannot raise, and stores one entry per
    piece. *)
Lemma generateScatter_total (win : Window.t) (rect : Rect.t)
      (scatter : gmap string Entry.t) (n : N) :
  ∃ scatter',
    (generateScatter random hypot win (Some rect) scatter n).1 = Some scatter'
    ∧ oneEntryPerPiece (scatterPositions random hypot win rect n).1.1 scatter'.
Proof.
  unfold generateScatter, bind, ret. cbv zeta. cbn [fst snd].
  set (positions := (scatterPositions random hypot win rect n).1.1).
  assert (Hlen : length positions = length pieces).
  { subst positions. unfold scatterPositions. rewrite forEachPiece_length. reflexivity. }
  destruct (entriesFrom_total positions pieces 0 ltac:(lia)) as (entries & -> & Hkeys & Hall).
  assert (Hnd : NoDup entries.*1) by (rewrite Hkeys; exact pieces_ids_NoDup).
  exists (fromEntries entries). split; [reflexivity |].
  split; [exact Hlen |]. split.
  - rewrite fromEntries_size by exact Hnd.
    rewrite <- (length_fmap fst entries), Hkeys, length_fmap. reflexivity.
  - intros index piece Hpiece. destruct (Hall index piece Hpiece) as (pos & Hpos & Hin).
    exists pos. split; [exact Hpos |]. apply fromEntries_lookup; assumption.
Qed.

End ScatterFacts.

Lemma generateScatter_unmounted (random : N → float) (hypot : float → float → float)
      (win : Window.t) (scatter : gmap string Entry.t) (n : N) :
  generateScatter random hypot win None scatter n = (Some scatter, n).
Proof. reflexivity. Qed.

Lemma budgetExhausted_check (random : N → float) (hypot : float → float → float)
      (f : Frame.t) (positions : list Pos.t) (n : N) :
  forallb (λ j, negb (clear hypot f positions (candidateAt random f (attemptDraw n j))))
          (seq 0 maxAttempts) = true →
  budgetExhausted random hypot f positions n.
Proof.
  intros H j Hj. rewrite forallb_forall in H.
  apply negb_true_iff, H, in_seq. lia.
Qed.

Lemma firstClear_not_exhausted (random : N → float) (hypot : float → float → float)
      (f : Frame.t) (positions : list Pos.t) (n : N) (k : nat) :
  firstClear random hypot f positions n k →
  ¬ budgetExhausted random hypot f positions n.
Proof. intros (Hk & Hc & _) Hex. rewrite (Hex k Hk) in Hc. discriminate. Qed.

Lemma placeOne_exhausted (random : N → float) (hypot : float → float → float)
      (f : Frame.t) (positions : list Pos.t) (n : N) :
  budgetExhausted random hypot f positions n →
  placeOne random hypot f positions n
  = ((positions ++ [candidateAt random f (attemptDraw n maxAttempts)], false),
     attemptDraw n (S maxAttempts)).
Proof.
  intros Hex.
  destruct (placeOne_cases random hypot f positions n) as [(k & Hfirst & _) | [_ Hrun]].
  - exfalso. exact (firstClear_not_exhausted _ _ _ _ _ _ Hfirst Hex).
  - exact Hrun.
Qed.

Lemma scatterPositions_eq (random : N → float) (hypot : float → float → float)
      (win : Window.t) (rect : Rect.t) :
  scatterPositions random hypot win rect
  = forEachPiece random hypot (frameOf win rect) pieces ([], []).
Proof. reflexivity. Qed.

Example wide_viewport_all_in_budget :
  (scatterPositions sampleHash hypotSqrt wideWindow wideStage 0%N).1.2 = replicate 16 true.
Proof. vm_compute. reflexivity. Qed.

(** C8, as the code has it. When none of the 600 candidates of a piece is
    far enough, the entry for that piece is one more candidate, drawn
    after the budget is spent (the 601st of that piece) and taken without
    any test.  Every call with a stage present returns without raising
    and stores exactly one entry per piece. *)
Theorem scatter_fallback_fresh (random : N → float) (hypot : float → float → float)
        (win : Window.t) (rect : Rect.t) :
  (∀ (positions : list Pos.t) (n : N),
     budgetExhausted random hypot (frameOf win rect) positions n →
     placeOne random hypot (frameOf win rect) positions n
     = ((positions
           ++ [candidateAt random (frameOf win rect) (attemptDraw n maxAttempts)],
         false),
        attemptDraw n (S maxAttempts)))
  ∧ (∀ (scatter : gmap string Entry.t) (n : N),
       ∃ scatter',
         (generateScatter random hypot win (Some rect) scatter n).1 = Some scatter'
         ∧ oneEntryPerPiece (scatterPositions random hypot win rect n).1.1 scatter').
Proof.
  split.
  - intros positions n. apply placeOne_exhausted.
  - intros scatter n. apply generateScatter_total.
Qed.

Lemma scatter_fallback_fresh_witness :
  placeOne sampleRamp hypotSqrt (frameOf tinyWindow tinyStage)
           [candidateAt sampleRamp (frameOf tinyWindow tinyStage) 0%N] 3%N
  = (([candidateAt sampleRamp (frameOf tinyWindow tinyStage) 0%N]
        ++ [candidateAt sampleRamp (frameOf tinyWindow tinyStage)
              (attemptDraw 3%N maxAttempts)],
      false),
     attemptDraw 3%N (S maxAttempts)).
Proof.
  apply (proj1 (scatter_fallback_fresh sampleRamp hypotSqrt tinyWindow tinyStage)).
  apply budgetExhausted_check. vm_compute. reflexivity.
Defined.

(** C8, as worded, fails: in a viewport too small for two pieces the
    second piece spends its budget, and the entry it gets is not the
    candidate of its last attempt. *)
Lemma fallback_is_not_last_attempt :
  ¬ keepsLastAttempt sampleRamp hypotSqrt (frameOf tinyWindow tinyStage)
      [candidateAt sampleRamp (frameOf tinyWindow tinyStage) 0%N] 3%N.
Proof.
  intros H.
  assert (Hex : budgetExhausted sampleRamp hypotSqrt (frameOf tinyWindow tinyStage)
                  [candidateAt sampleRamp (frameOf tinyWindow tinyStage) 0%N] 3%N)
    by (apply budgetExhausted_check; vm_compute; reflexivity).
  specialize (H Hex). rewrite (placeOne_exhausted _ _ _ _ _ Hex) in H.
  cbn [fst] in H. apply app_inv_head in H.
  apply (f_equal (λ l : list Pos.t,
                    match l with
                    | p :: _ =>
                        PrimFloat.eqb (Pos.tilt p)
                          (Pos.tilt (candidateAt sampleRamp (frameOf tinyWindow tinyStage)
                                       (attemptDraw 3%N maxAttempts)))
                    | [] => false
                    end)) in H.
  vm_compute in H. discriminate.
Qed.

Example tiny_viewport_run :
  (scatterPositions sampleRamp hypotSqrt tinyWindow tinyStage 0%N).1.2
  = true :: replicate 15 false
  ∧ (scatterPositions sampleRamp hypotSqrt tinyWindow tinyStage 0%N).1.1 !! 1%nat
    = Some (candidateAt sampleRamp (frameOf tinyWindow tinyStage) 1803%N)
  ∧ (scatterPositions sampleRamp hypotSqrt tinyWindow tinyStage 0%N).2 = 27048%N.
Proof. vm_compute. repeat split; reflexivity. Qed.

Example tiny_viewport_frame :
  (Frame.minX (frameOf tinyWindow tinyStage) <=? Frame.maxX (frameOf tinyWindow tinyStage))%float
  = false
  ∧ (Frame.minY (frameOf tinyWindow tinyStage) <=? Frame.maxY (frameOf tinyWindow tinyStage))%float
    = false
  ∧ (0 <? Frame.minX (frameOf tinyWindow tinyStage))%float = true
  ∧ (Frame.maxX (frameOf tinyWindow tinyStage) <? 0)%float = true.
Proof. vm_compute. repeat split; reflexivity. Qed.

(* ===================================================================== *)
(** ** Pieces, slots and drops: further facts *)
(* ===================================================================== *)

Lemma elem_of_pieces (piece : Piece.t) :
  piece ∈ pieces
  ↔ ∃ index : nat, (index < 16)%nat
      ∧ piece = Piece.mk ("p" +:+ pretty (index + 1)%nat) (pretty (index + 1)%nat)
                         (Z.of_nat index).
Proof.
  unfold pieces. rewrite list_elem_of_fmap. split.
  - intros (index & -> & Hin). apply elem_of_seq in Hin. exists index. split; [lia | reflexivity].
  - intros (index & Hlt & ->). exists index. split; [reflexivity |].
    apply elem_of_seq. lia.
Qed.

Lemma pieces_same_id (p q : Piece.t) :
  p ∈ pieces → q ∈ pieces → Piece.id p = Piece.id q → p = q.
Proof.
  intros Hp Hq E.
  assert (piecesById !! Piece.id p = Some p) as H1 by (apply piecesById_lookup; auto).
  assert (piecesById !! Piece.id p = Some q) as H2 by (apply piecesById_lookup; auto).
  congruence.
Qed.

Lemma pieces_same_slot (p q : Piece.t) :
  p ∈ pieces → q ∈ pieces → Piece.slot p = Piece.slot q → p = q.
Proof.
  intros (i & _ & ->)%elem_of_pieces (j & _ & ->)%elem_of_pieces E.
  cbn in E. apply Nat2Z.inj in E. subst j. reflexivity.
Qed.

Lemma pieces_slot_range (p : Piece.t) :
  p ∈ pieces → 0 <= Piece.slot p < ROWS * COLS.
Proof. intros (i & Hi & ->)%elem_of_pieces. cbn. unfold ROWS, COLS. lia. Qed.

(** X1. Slots and pieces are paired one to one: every slot of the grid is
    the home of exactly one piece id, an id has at most one home, and no
    index outside the grid is a home. *)
Theorem home_slots_one_to_one :
  (∀ slot, 0 <= slot < ROWS * COLS →
     ∃ id, homeOf id slot ∧ ∀ id', homeOf id' slot → id' = id)
  ∧ (∀ id s s', homeOf id s → homeOf id s' → s = s')
  ∧ (∀ id s, homeOf id s → 0 <= s < ROWS * COLS).
Proof.
  split; [| split].
  - intros slot Hslot.
    set (piece := Piece.mk ("p" +:+ pretty (Z.to_nat slot + 1)%nat)
                           (pretty (Z.to_nat slot + 1)%nat) (Z.of_nat (Z.to_nat slot))).
    assert (Hin : piece ∈ pieces).
    { apply elem_of_pieces. exists (Z.to_nat slot). split; [| reflexivity].
      unfold ROWS, COLS in Hslot. lia. }
    assert (Hs : Piece.slot piece = slot) by (cbn; lia).
    exists (Piece.id piece). split; [exists piece; auto |].
    intros id' (q & Hq & <- & Hqs). f_equal.
    apply pieces_same_slot; [assumption | assumption | congruence].
  - intros id s s' (p & Hp & Hpid & <-) (q & Hq & Hqid & <-). f_equal.
    apply pieces_same_id; [assumption | assumption | congruence].
  - intros id s (p & Hp & _ & <-). apply pieces_slot_range, Hp.
Qed.

Lemma home_slots_one_to_one_witness :
  (∃ id, homeOf id 6 ∧ ∀ id', homeOf id' 6 → id' = id)
  ∧ (∀ s', homeOf "p7" s' → 6 = s')
  ∧ 0 <= 6 < ROWS * COLS.
Proof.
  assert (H7 : homeOf "p7" 6).
  { exists (Piece.mk "p7" "7" 6). split; [| split; reflexivity].
    apply elem_of_pieces. exists 6%nat. split; [lia | reflexivity]. }
  destruct home_slots_one_to_one as (H1 & H2 & H3).
  split; [| split].
  - apply H1. unfold ROWS, COLS. lia.
  - intros s'. apply (H2 "p7" 6 s' H7).
  - apply (H3 "p7" 6 H7).
Defined.

Lemma isPlaced_handleDrop (placed : gmap string bool) (id : string) (slotIndex : Z)
      (k : string) :
  isPlaced (handleDrop placed id slotIndex) k
  ↔ isPlaced placed k ∨ (k = id ∧ homeOf id slotIndex).
Proof.
  unfold isPlaced at 1 2.
  destruct (homeOf_dec id slotIndex) as [Hh | Hh].
  - destruct (decide (placed !! id = Some true)) as [Hp | Hp].
    + rewrite handleDrop_rejects by (unfold isPlaced; tauto).
      split; [auto |]. intros [H | [-> _]]; assumption.
    + rewrite handleDrop_accepts by assumption.
      destruct (decide (k = id)) as [-> | Hne].
      * rewrite lookup_insert_eq. split; auto.
      * rewrite lookup_insert_ne by auto. split; [auto |]. intros [H | [E _]]; [exact H | contradiction].
  - rewrite handleDrop_rejects by tauto.
    split; [auto |]. intros [H | [_ H]]; [exact H | contradiction].
Qed.

(** X2. Placed is final: whatever is dropped wherever, a piece that was
    placed before the drop is placed after it. *)
Theorem handleDrop_keeps_placed (placed : gmap string bool) (id k : string)
        (slotIndex : Z) :
  isPlaced placed k → isPlaced (handleDrop placed id slotIndex) k.
Proof. intros H. apply isPlaced_handleDrop. left. exact H. Qed.

Lemma handleDrop_keeps_placed_witness :
  isPlaced (handleDrop (handleDrop initialPlaced "p7" 6) "p3" 6) "p7".
Proof.
  apply (handleDrop_keeps_placed (handleDrop initialPlaced "p7" 6) "p3" "p7" 6).
  vm_compute. reflexivity.
Defined.

Lemma handleDrop_insert_or_same (placed : gmap string bool) (id : string) (slotIndex : Z) :
  (handleDrop placed id slotIndex = <[id := true]> placed
   ∧ homeOf id slotIndex ∧ ¬ isPlaced placed id)
  ∨ (handleDrop placed id slotIndex = placed
     ∧ ¬ (homeOf id slotIndex ∧ ¬ isPlaced placed id)).
Proof.
  destruct (homeOf_dec id slotIndex) as [Hh | Hh].
  - destruct (decide (placed !! id = Some true)) as [Hp | Hp].
    + right. split; [apply handleDrop_rejects |]; unfold isPlaced; tauto.
    + left. split; [apply handleDrop_accepts |]; auto.
  - right. split; [apply handleDrop_rejects |]; tauto.
Qed.

Lemma accepting_insert_other (m : gmap string bool) (id other : string) (slot : Z) :
  other ≠ id →
  (homeOf id slot ∧ ¬ isPlaced (<[other := true]> m) id)
  ↔ (homeOf id slot ∧ ¬ isPlaced m id).
Proof. intros Hne. unfold isPlaced. rewrite lookup_insert_ne by exact Hne. reflexivity. Qed.

Lemma handleDrop_again (m : gmap string bool) (id : string) (slot : Z) :
  handleDrop (<[id := true]> m) id slot = <[id := true]> m.
Proof. apply handleDrop_rejects. intros [_ H]. apply H, lookup_insert_eq. Qed.

(** X3. Two drops give the same state in either order. *)
Theorem handleDrop_commute (placed : gmap string bool) (a b : string) (s t : Z) :
  handleDrop (handleDrop placed a s) b t = handleDrop (handleDrop placed b t) a s.
Proof.
  destruct (decide (a = b)) as [-> | Hne].
  - destruct (handleDrop_insert_or_same placed b s) as [(Es & _) | [Es _]];
      destruct (handleDrop_insert_or_same placed b t) as [(Et & _) | [Et _]];
      rewrite Es, Et, ?handleDrop_again, ?Es, ?Et; reflexivity.
  - destruct (handleDrop_insert_or_same placed a s) as [(Es & Ha) | [Es Ha]];
      destruct (handleDrop_insert_or_same placed b t) as [(Et & Hb) | [Et Hb]];
      rewrite Es, Et.
    + rewrite (handleDrop_accepts (<[a := true]> placed) b t);
        [| tauto | apply (accepting_insert_other placed b a t); auto].
      rewrite (handleDrop_accepts (<[b := true]> placed) a s);
        [| tauto | apply (accepting_insert_other placed a b s); auto].
      apply insert_insert_ne. auto.
    + rewrite Es. apply handleDrop_rejects.
      rewrite (accepting_insert_other placed b a t) by auto. exact Hb.
    + symmetry. apply handleDrop_rejects.
      rewrite (accepting_insert_other placed a b s) by auto. exact Ha.
    + rewrite Es. reflexivity.
Qed.

Lemma initialPlaced_lookup (id : string) (b : bool) :
  initialPlaced !! id = Some b
  ↔ b = false ∧ ∃ piece, piece ∈ pieces ∧ Piece.id piece = id.
Proof.
  unfold initialPlaced. rewrite fromEntries_lookup.
  - rewrite list_elem_of_fmap. split.
    + intros (piece & E & Hp). injection E as -> ->. eauto.
    + intros (-> & piece & Hp & <-). eauto.
  - rewrite <- list_fmap_compose. exact pieces_ids_NoDup.
Qed.

Lemma keysArePieces_initialPlaced : keysArePieces initialPlaced.
Proof.
  intros id. split.
  - intros [b Hb]. apply initialPlaced_lookup in Hb. tauto.
  - intros Hp. exists false. apply initialPlaced_lookup. auto.
Qed.

Lemma keysArePieces_handleDrop (placed : gmap string bool) (id : string) (slotIndex : Z) :
  keysArePieces placed → keysArePieces (handleDrop placed id slotIndex).
Proof.
  intros Hkeys.
  destruct (handleDrop_insert_or_same placed id slotIndex)
    as [(-> & (piece & Hp & Hid & _) & _) | [-> _]]; [| exact Hkeys].
  intros k. rewrite lookup_insert_is_Some, (Hkeys k). split.
  - intros [<- | [_ H]]; eauto.
  - intros H. destruct (decide (id = k)); auto.
Qed.

Lemma dropAll_cons (placed : gmap string bool) (d : string * Z) (drops : list (string * Z)) :
  dropAll placed (d :: drops) = dropAll (handleDrop placed d.1 d.2) drops.
Proof. reflexivity. Qed.

Lemma isPlaced_dropAll (placed : gmap string bool) (drops : list (string * Z)) (id : string) :
  isPlaced (dropAll placed drops) id
  ↔ isPlaced placed id ∨ ∃ slot, (id, slot) ∈ drops ∧ homeOf id slot.
Proof.
  revert placed. induction drops as [| [a s] drops IH]; intros placed.
  - cbn. split; [auto |]. intros [H | (slot & Hin & _)]; [exact H |].
    by apply elem_of_nil in Hin.
  - rewrite dropAll_cons, IH, isPlaced_handleDrop. cbn [fst snd]. split.
    + intros [[H | [-> Hh]] | (slot & Hin & Hh)]; [auto | |].
      * right. exists s. split; [left | exact Hh].
      * right. exists slot. split; [right; exact Hin | exact Hh].
    + intros [H | (slot & Hin & Hh)]; [auto |].
      apply elem_of_cons in Hin as [E | Hin].
      * injection E as -> ->. auto.
      * right. eauto.
Qed.

Lemma isComplete_iff (placed : gmap string bool) :
  isComplete placed = true ↔ ∀ id b, placed !! id = Some b → b = true.
Proof.
  unfold isComplete. rewrite forallb_forall. split.
  - intros H id b Hl. apply (H (id, b)).
    apply list_elem_of_In, elem_of_map_to_list. exact Hl.
  - intros H [id b] Hin. apply list_elem_of_In, elem_of_map_to_list in Hin.
    cbn. eauto.
Qed.

Lemma keysArePieces_dropAll (placed : gmap string bool) (drops : list (string * Z)) :
  keysArePieces placed → keysArePieces (dropAll placed drops).
Proof.
  revert placed. induction drops as [| d drops IH]; intros placed Hkeys; [exact Hkeys |].
  rewrite dropAll_cons. apply IH, keysArePieces_handleDrop, Hkeys.
Qed.

Lemma reachable_keys (drops : list (string * Z)) :
  keysArePieces (dropAll initialPlaced drops).
Proof. apply keysArePieces_dropAll, keysArePieces_initialPlaced. Qed.

(** X4. From the initial state no series of drops adds or removes a key:
    the state always has exactly one flag per piece, and each flag is
    false until the piece is placed. *)
Theorem dropAll_keeps_keys (drops : list (string * Z)) :
  keysArePieces (dropAll initialPlaced drops)
  ∧ ∀ piece, piece ∈ pieces →
      dropAll initialPlaced drops !! Piece.id piece = Some true
      ∨ dropAll initialPlaced drops !! Piece.id piece = Some false.
Proof.
  split; [apply reachable_keys |].
  intros piece Hp.
  destruct (proj2 (reachable_keys drops (Piece.id piece))) as [[|] Hb]; eauto.
Qed.

Lemma dropAll_keeps_keys_witness :
  dropAll initialPlaced [("p7"%string, 6); ("p3"%string, 6)] !! "p7"%string = Some true
  ∨ dropAll initialPlaced [("p7"%string, 6); ("p3"%string, 6)] !! "p7"%string = Some false.
Proof.
  apply (proj2 (dropAll_keeps_keys [("p7"%string, 6); ("p3"%string, 6)])
               (Piece.mk "p7" "7" 6)).
  apply elem_of_pieces. exists 6%nat. split; [lia | reflexivity].
Defined.

(** X5. After a series of drops from the initial state a piece is placed
    exactly when one of the drops carried its id onto its home slot. *)
Theorem dropAll_placed_iff (drops : list (string * Z)) (id : string) :
  isPlaced (dropAll initialPlaced drops) id
  ↔ ∃ slot, (id, slot) ∈ drops ∧ homeOf id slot.
Proof.
  rewrite isPlaced_dropAll. split; [| auto].
  intros [H | H]; [| exact H].
  apply initialPlaced_lookup in H as [H _]. discriminate.
Qed.

(** X6. The puzzle is complete after a series of drops exactly when every
    piece was dropped on its own slot at some point of the series. *)
Theorem dropAll_complete_iff (drops : list (string * Z)) :
  isComplete (dropAll initialPlaced drops) = true
  ↔ ∀ piece, piece ∈ pieces → (Piece.id piece, Piece.slot piece) ∈ drops.
Proof.
  rewrite isComplete_iff. split.
  - intros Hall piece Hp.
    destruct (proj2 (reachable_keys drops (Piece.id piece))) as [b Hb]; [eauto |].
    rewrite (Hall _ _ Hb) in Hb.
    apply isPlaced_dropAll in Hb as [Hb | (slot & Hin & (q & Hq & Hid & Hslot))].
    + apply initialPlaced_lookup in Hb as [Hb _]. discriminate.
    + assert (E : piece = q) by (apply pieces_same_id; auto).
      subst q. rewrite Hslot. exact Hin.
  - intros Hall id b Hb.
    destruct (proj1 (reachable_keys drops id)) as (piece & Hp & Hid); [eauto |].
    assert (Hpl : isPlaced (dropAll initialPlaced drops) id).
    { apply isPlaced_dropAll. right. exists (Piece.slot piece). split.
      - rewrite <- Hid. apply Hall, Hp.
      - exists piece. auto. }
    unfold isPlaced in Hpl. congruence.
Qed.

(* ===================================================================== *)
(** ** What is drawn where *)
(* ===================================================================== *)

Lemma board_pieces_filter (placed : gmap string bool) (l : list Piece.t) :
  omap snd ((λ piece, (Piece.slot piece,
                       if truthy (placed !! Piece.id piece) then Some piece else None))
              <$> l)
  = filter (λ piece, truthy (placed !! Piece.id piece) = true) l.
Proof.
  induction l as [| piece l IH]; [reflexivity |].
  cbn [fmap list_fmap omap list_omap snd]. rewrite filter_cons.
  destruct (truthy (placed !! Piece.id piece)); cbn.
  - rewrite decide_True by reflexivity. f_equal. exact IH.
  - rewrite decide_False by discriminate. exact IH.
Qed.

Lemma trayPieces_filter (placed : gmap string bool) :
  trayPieces placed
  = filter (λ piece, ¬ truthy (placed !! Piece.id piece) = true) pieces.
Proof.
  unfold trayPieces. apply list_filter_iff. intros piece.
  destruct (truthy (placed !! Piece.id piece)); cbn; split; congruence.
Qed.

Lemma drawn_pieces_perm (placed : gmap string bool) :
  omap snd (boardSlots placed) ++ trayPieces placed ≡ₚ pieces.
Proof.
  unfold boardSlots. rewrite board_pieces_filter, trayPieces_filter.
  apply filter_app_complement.
Qed.

(** X7. Every piece is drawn exactly once: in the tray while it is not
    placed, in the slot element of its own slot once it is, and never in
    both or in another piece's slot. *)
Theorem each_piece_drawn_once (placed : gmap string bool) :
  omap snd (boardSlots placed) ++ trayPieces placed ≡ₚ pieces
  ∧ (∀ piece, piece ∈ trayPieces placed
              ↔ piece ∈ pieces ∧ ¬ isPlaced placed (Piece.id piece))
  ∧ (∀ slot piece, (slot, Some piece) ∈ boardSlots placed
                   ↔ piece ∈ pieces ∧ slot = Piece.slot piece
                     ∧ isPlaced placed (Piece.id piece)).
Proof.
  split; [apply drawn_pieces_perm |]. split.
  - intros piece. unfold trayPieces. rewrite list_elem_of_filter.
    rewrite <- truthy_isPlaced.
    destruct (truthy (placed !! Piece.id piece)); cbn; split;
      intros [H1 H2]; split; auto; congruence.
  - intros slot piece. unfold boardSlots. rewrite list_elem_of_fmap.
    setoid_rewrite <- truthy_isPlaced. split.
    + intros (q & E & Hq).
      destruct (truthy (placed !! Piece.id q)) eqn:Ht; [| discriminate E].
      injection E as -> ->. auto.
    + intros (Hp & -> & Ht). exists piece. rewrite Ht. auto.
Qed.

(** X8. After any series of drops from the initial state, the puzzle is
    complete exactly when the tray is empty. *)
Theorem complete_iff_tray_empty (drops : list (string * Z)) :
  isComplete (dropAll initialPlaced drops) = true
  ↔ trayPieces (dropAll initialPlaced drops) = [].
Proof.
  set (placed := dropAll initialPlaced drops).
  pose proof (reachable_keys drops) as Hkeys. fold placed in Hkeys.
  rewrite isComplete_iff. split.
  - intros Hall. apply elem_of_nil_inv. intros piece Hin.
    unfold trayPieces in Hin. apply list_elem_of_filter in Hin as [Hn Hp].
    destruct (proj2 (Hkeys (Piece.id piece))) as [b Hb]; [eauto |].
    rewrite Hb, (Hall _ _ Hb) in Hn. discriminate.
  - intros Hempty id b Hb.
    destruct (proj1 (Hkeys id)) as (piece & Hp & <-); [eauto |].
    destruct b; [reflexivity | exfalso].
    assert (Hin : piece ∈ trayPieces placed).
    { unfold trayPieces. apply list_elem_of_filter. rewrite Hb. auto. }
    rewrite Hempty in Hin. by apply elem_of_nil in Hin.
Qed.

Lemma all_ids_NoDup : NoDup (pieces ≫= svgIds).
Proof. apply (bool_decide_unpack _). vm_compute. reflexivity. Qed.

(** X9. Whatever the state, no two elements drawn on the page declare the
    same id: the gradient, pattern and clip-path ids of all the drawings
    are pairwise different. *)
Theorem renderedIds_NoDup (placed : gmap string bool) : NoDup (renderedIds placed).
Proof.
  unfold renderedIds.
  assert (E : (omap snd (boardSlots placed) ≫= svgIds) ++ (trayPieces placed ≫= svgIds)
              ≡ₚ pieces ≫= svgIds).
  { transitivity ((omap snd (boardSlots placed) ++ trayPieces placed) ≫= svgIds).
    - rewrite bind_app. reflexivity.
    - rewrite (drawn_pieces_perm placed). reflexivity. }
  rewrite E. exact all_ids_NoDup.
Qed.

(** X10. The fill and the clip of a drawing refer to ids that the same
    drawing declares, and the pattern id determines the piece id: two
    pieces share a pattern id only if they share their id. *)
Theorem pattern_ids_resolve (p q : Piece.t) :
  fillUrl p = "url(#" +:+ Pattern.id (imagePattern p) +:+ ")"
  ∧ clipUrl p = "url(#" +:+ clipId p +:+ ")"
  ∧ Pattern.id (imagePattern p) ∈ svgIds p ∧ clipId p ∈ svgIds p
  ∧ (Pattern.id (imagePattern p) = Pattern.id (imagePattern q) ↔ Piece.id p = Piece.id q)
  ∧ Pattern.id (imagePattern p) ≠ clipId q
  ∧ Pattern.id (imagePattern p) ≠ gradId q
  ∧ clipId p ≠ gradId q.
Proof.
  repeat split; try reflexivity; try discriminate.
  - unfold svgIds. set_solver.
  - unfold svgIds. set_solver.
  - cbn. intros E. injection E. auto.
  - intros E. unfold imagePattern. cbn. rewrite E. reflexivity.
Qed.

(* ===================================================================== *)
(** ** The drag handlers *)
(* ===================================================================== *)

(** X11. The id a drag starts with is the id the drop handler reads, with
    any number of drag-over events in between; and a drag that carries no
    plain text changes nothing when dropped. *)
Theorem drag_then_drop (placed : gmap string bool) (dt : DataTransfer.t)
        (id : string) (slotIndex : Z) (overs : nat) :
  handleDropEvent placed (Nat.iter overs handleDragOver (handleDragStart dt id)) slotIndex
  = handleDrop placed id slotIndex
  ∧ (DataTransfer.data dt !! "text/plain" = None →
     handleDropEvent placed (Nat.iter overs handleDragOver dt) slotIndex = placed).
Proof.
  assert (Hover : ∀ d, getData (Nat.iter overs handleDragOver d) "text/plain"
                       = getData d "text/plain").
  { intros d. induction overs as [| n IH]; [reflexivity |]. cbn [Nat.iter]. exact IH. }
  unfold handleDropEvent. rewrite !Hover. split.
  - unfold getData, handleDragStart, setData. cbn. rewrite lookup_insert_eq. reflexivity.
  - intros Hnone. unfold getData. rewrite Hnone. reflexivity.
Qed.

Lemma drag_then_drop_witness :
  handleDropEvent initialPlaced
    (Nat.iter 2 handleDragOver (DataTransfer.mk ∅ "none" "none")) 6
  = initialPlaced.
Proof.
  apply (proj2 (drag_then_drop initialPlaced (DataTransfer.mk ∅ "none" "none") "p7" 6 2)).
  reflexivity.
Defined.

Lemma trayEntries_defined (placed : gmap string bool) (scatter : gmap string Entry.t) :
  (∀ piece, piece ∈ pieces → is_Some (scatter !! Piece.id piece)) →
  is_Some (trayEntries placed scatter).
Proof.
  intros Hall. unfold trayEntries. apply mapM_is_Some_2, Forall_forall.
  intros piece Hin. unfold trayPieces in Hin. apply list_elem_of_filter in Hin as [_ Hp].
  cbn. destruct (Hall piece Hp) as [entry ->]. eauto.
Qed.

Lemma initialScatter_lookup (piece : Piece.t) :
  piece ∈ pieces → initialScatter !! Piece.id piece = Some (Entry.mk (Start.mk 0 0) 0).
Proof.
  intros Hp. unfold initialScatter. apply fromEntries_lookup.
  - rewrite <- list_fmap_compose. exact pieces_ids_NoDup.
  - apply list_elem_of_fmap. eauto.
Qed.

(** X12. The transform of a tray piece can always be computed: the
    initial layout has an entry for every piece, every call of
    [generateScatter], with or without a stage, leaves a layout that has
    one, and with such a layout reading the entries of the tray pieces
    does not raise, whichever pieces are placed. *)
Theorem tray_transforms_defined :
  (∀ piece, piece ∈ pieces → is_Some (initialScatter !! Piece.id piece))
  ∧ ∀ (random : N → float) (hypot : float → float → float) (win : Window.t)
      (stage : option Rect.t) (scatter : gmap string Entry.t) (n : N)
      (placed : gmap string bool),
      (∀ piece, piece ∈ pieces → is_Some (scatter !! Piece.id piece)) →
      ∃ scatter',
        (generateScatter random hypot win stage scatter n).1 = Some scatter'
        ∧ (∀ piece, piece ∈ pieces → is_Some (scatter' !! Piece.id piece))
        ∧ is_Some (trayEntries placed scatter').
Proof.
  split.
  - intros piece Hp. rewrite (initialScatter_lookup piece Hp). eauto.
  - intros random hypot win stage scatter n placed Hall.
    destruct stage as [rect |].
    + destruct (generateScatter_total random hypot win rect scatter n)
        as (scatter' & Hrun & _ & _ & Hentries).
      exists scatter'. split; [exact Hrun |].
      assert (Hall' : ∀ piece, piece ∈ pieces → is_Some (scatter' !! Piece.id piece)).
      { intros piece Hp. apply list_elem_of_lookup in Hp as [index Hindex].
        destruct (Hentries index piece Hindex) as (pos & _ & ->). eauto. }
      split; [exact Hall' | apply trayEntries_defined, Hall'].
    + exists scatter. split; [reflexivity |].
      split; [exact Hall | apply trayEntries_defined, Hall].
Qed.

Lemma tray_transforms_defined_witness :
  ∃ scatter',
    (generateScatter sampleRamp hypotSqrt tinyWindow (Some tinyStage) initialScatter 0%N).1
    = Some scatter'
    ∧ (∀ piece, piece ∈ pieces → is_Some (scatter' !! Piece.id piece))
    ∧ is_Some (trayEntries initialPlaced scatter').
Proof.
  apply (proj2 tray_transforms_defined sampleRamp hypotSqrt tinyWindow (Some tinyStage)
               initialScatter 0%N initialPlaced).
  apply (proj1 tray_transforms_defined).
Defined.

(* ===================================================================== *)
(** ** Cells, slots and outlines: further facts *)
(* ===================================================================== *)

(** X13. [getEdges] returns valid edge codes for any numbers at all, also
    for cells outside the grid. *)
Theorem getEdges_codes (row col : Z) :
  isEdgeCode (Edges.top (getEdges row col))
  ∧ isEdgeCode (Edges.right (getEdges row col))
  ∧ isEdgeCode (Edges.bottom (getEdges row col))
  ∧ isEdgeCode (Edges.left (getEdges row col)).
Proof.
  unfold getEdges, isEdgeCode. cbn [Edges.top Edges.right Edges.bottom Edges.left].
  repeat split.
  - destruct (row =? 0); [left; reflexivity | right; apply tab_cases].
  - destruct (col =? COLS - 1); [left; reflexivity | right; apply tab_cases].
  - destruct (row =? ROWS - 1); [left; reflexivity | right; apply opp_tab_cases].
  - destruct (col =? 0); [left; reflexivity | right; apply opp_tab_cases].
Qed.

(** X14. Slot to cell and back.  For a slot that is not negative the row
    and column are those of the slot ([row * COLS + col] is the slot and
    the column is within the row); for a negative slot that is not a
    multiple of [COLS] the column is negative and the cell found is one
    row off: [row * COLS + col] is the slot minus [COLS]. *)
Theorem getPieceCoords_round_trip (slot : Z) :
  (0 <= slot →
   Coords.row (getPieceCoords slot) * COLS + Coords.col (getPieceCoords slot) = slot
   ∧ 0 <= Coords.col (getPieceCoords slot) < COLS
   ∧ 0 <= Coords.row (getPieceCoords slot))
  ∧ (slot < 0 → Z.rem slot COLS ≠ 0 →
     Coords.row (getPieceCoords slot) * COLS + Coords.col (getPieceCoords slot)
     = slot - COLS
     ∧ - COLS < Coords.col (getPieceCoords slot) < 0).
Proof.
  unfold getPieceCoords. cbn [Coords.row Coords.col].
  assert (HC : COLS = 4) by reflexivity. rewrite HC.
  pose proof (Z.div_mod slot 4 ltac:(lia)) as Hd.
  pose proof (Z.mod_pos_bound slot 4 ltac:(lia)) as Hm.
  pose proof (Z.quot_rem' slot 4) as Hq.
  split.
  - intros Hs. rewrite Z.rem_mod_nonneg by lia.
    split; [lia |]. split; [lia |]. apply Z.div_pos; lia.
  - intros Hs Hr. pose proof (Z.rem_bound_pos_neg slot 4 ltac:(lia) ltac:(lia)) as Hb.
    split; lia.
Qed.

Lemma getPieceCoords_round_trip_witness :
  (Coords.row (getPieceCoords 6) * COLS + Coords.col (getPieceCoords 6) = 6
   ∧ 0 <= Coords.col (getPieceCoords 6) < COLS
   ∧ 0 <= Coords.row (getPieceCoords 6))
  ∧ (Coords.row (getPieceCoords (-1)) * COLS + Coords.col (getPieceCoords (-1))
     = -1 - COLS
     ∧ - COLS < Coords.col (getPieceCoords (-1)) < 0).
Proof.
  split.
  - apply (proj1 (getPieceCoords_round_trip 6)). lia.
  - apply (proj2 (getPieceCoords_round_trip (-1))); [lia | vm_compute; discriminate].
Defined.

Ltac grid_cases row col H :=
  let Hr := fresh "Hr" in
  let Hc := fresh "Hc" in
  destruct H as [Hr Hc]; unfold ROWS in Hr; unfold COLS in Hc;
  assert (row = 0 ∨ row = 1 ∨ row = 2 ∨ row = 3) as Hrow by lia;
  assert (col = 0 ∨ col = 1 ∨ col = 2 ∨ col = 3) as Hcol by lia;
  clear Hr Hc;
  destruct Hrow as [-> | [-> | [-> | ->]]];
  destruct Hcol as [-> | [-> | [-> | ->]]].

(** X15. The image tile of a piece of the grid covers the piece's cell:
    its origin is not right of or below the cell's corner, and it reaches
    at least to the far corner of the cell. *)
Theorem imagePattern_covers_cell (piece : Piece.t) :
  0 <= Piece.slot piece < ROWS * COLS →
  Pattern.x (imagePattern piece) <= 0
  ∧ 100 <= Pattern.x (imagePattern piece) + Pattern.width (imagePattern piece)
  ∧ Pattern.y (imagePattern piece) <= 0
  ∧ 100 <= Pattern.y (imagePattern piece) + Pattern.height (imagePattern piece).
Proof.
  intros Hs. unfold imagePattern, getPieceCoords.
  cbn [Pattern.x Pattern.y Pattern.width Pattern.height Coords.row Coords.col].
  unfold ROWS, COLS in *.
  rewrite Z.rem_mod_nonneg by lia.
  pose proof (Z.mod_pos_bound (Piece.slot piece) 4 ltac:(lia)).
  pose proof (Z.div_mod (Piece.slot piece) 4 ltac:(lia)).
  lia.
Qed.

Lemma imagePattern_covers_cell_witness :
  Pattern.x (imagePattern (Piece.mk "p16" "16" 15)) <= 0
  ∧ 100 <= Pattern.x (imagePattern (Piece.mk "p16" "16" 15))
           + Pattern.width (imagePattern (Piece.mk "p16" "16" 15))
  ∧ Pattern.y (imagePattern (Piece.mk "p16" "16" 15)) <= 0
  ∧ 100 <= Pattern.y (imagePattern (Piece.mk "p16" "16" 15))
           + Pattern.height (imagePattern (Piece.mk "p16" "16" 15)).
Proof.
  apply (imagePattern_covers_cell (Piece.mk "p16" "16" 15)).
  cbn. unfold ROWS, COLS. lia.
Defined.

(** X16. Pieces of different slots of the grid show different parts of
    the image: the tile origin determines the slot. *)
Theorem imagePattern_origin_inj (p q : Piece.t) :
  0 <= Piece.slot p < ROWS * COLS → 0 <= Piece.slot q < ROWS * COLS →
  Pattern.x (imagePattern p) = Pattern.x (imagePattern q) →
  Pattern.y (imagePattern p) = Pattern.y (imagePattern q) →
  Piece.slot p = Piece.slot q.
Proof.
  intros Hp Hq. unfold imagePattern, getPieceCoords.
  cbn [Pattern.x Pattern.y Coords.row Coords.col].
  unfold ROWS, COLS in *.
  rewrite !Z.rem_mod_nonneg by lia.
  pose proof (Z.div_mod (Piece.slot p) 4 ltac:(lia)).
  pose proof (Z.div_mod (Piece.slot q) 4 ltac:(lia)).
  lia.
Qed.

Lemma imagePattern_origin_inj_witness :
  Piece.slot (Piece.mk "p7" "7" 6) = Piece.slot (Piece.mk "other" "7" 6).
Proof.
  apply (imagePattern_origin_inj (Piece.mk "p7" "7" 6) (Piece.mk "other" "7" 6));
    cbn; unfold ROWS, COLS; lia.
Defined.

(** X17. Neighbours by slot number.  Two pieces whose slots follow each
    other interlock along their shared edge, except where the second
    slot begins a new row: there both edges are FLAT.  Two pieces whose
    slots are [COLS] apart interlock along the edge between their rows. *)
Theorem slot_neighbours_interlock (p q : Piece.t) :
  0 <= Piece.slot p → Piece.slot q < ROWS * COLS →
  (Piece.slot q = Piece.slot p + 1 →
   if Z.rem (Piece.slot q) COLS =? 0
   then Edges.right (pieceEdges p) = FLAT ∧ Edges.left (pieceEdges q) = FLAT
   else complementary (Edges.right (pieceEdges p)) (Edges.left (pieceEdges q)))
  ∧ (Piece.slot q = Piece.slot p + COLS →
     complementary (Edges.bottom (pieceEdges p)) (Edges.top (pieceEdges q))).
Proof.
  destruct p as [pid plabel s], q as [qid qlabel s'].
  cbn [Piece.slot]. unfold pieceEdges. cbn [Piece.slot].
  unfold ROWS, COLS at 1. intros Hs Hs'.
  split; intros ->.
  - assert (Hcases : s = 0 ∨ s = 1 ∨ s = 2 ∨ s = 3 ∨ s = 4 ∨ s = 5 ∨ s = 6 ∨ s = 7
                     ∨ s = 8 ∨ s = 9 ∨ s = 10 ∨ s = 11 ∨ s = 12 ∨ s = 13 ∨ s = 14)
      by lia.
    repeat (destruct Hcases as [-> | Hcases]); try subst s;
      vm_compute; first [split; reflexivity | left; split; reflexivity
                        | right; split; reflexivity].
  - unfold COLS in Hs' at 1.
    assert (Hcases : s = 0 ∨ s = 1 ∨ s = 2 ∨ s = 3 ∨ s = 4 ∨ s = 5 ∨ s = 6 ∨ s = 7
                     ∨ s = 8 ∨ s = 9 ∨ s = 10 ∨ s = 11) by lia.
    repeat (destruct Hcases as [-> | Hcases]); try subst s;
      vm_compute; first [left; split; reflexivity | right; split; reflexivity].
Qed.

Lemma slot_neighbours_interlock_witness :
  (Edges.right (pieceEdges (Piece.mk "p4" "4" 3)) = FLAT
   ∧ Edges.left (pieceEdges (Piece.mk "p5" "5" 4)) = FLAT)
  ∧ complementary (Edges.bottom (pieceEdges (Piece.mk "p1" "1" 0)))
                  (Edges.top (pieceEdges (Piece.mk "p5" "5" 4))).
Proof.
  split.
  - apply (proj1 (slot_neighbours_interlock (Piece.mk "p4" "4" 3) (Piece.mk "p5" "5" 4)
                    ltac:(cbn; lia) ltac:(cbn; unfold ROWS, COLS; lia))).
    reflexivity.
  - apply (proj2 (slot_neighbours_interlock (Piece.mk "p1" "1" 0) (Piece.mk "p5" "5" 4)
                    ltac:(cbn; lia) ltac:(cbn; unfold ROWS, COLS; lia))).
    reflexivity.
Defined.

(** X18. Every piece of the grid is of one kind: all the arcs of its
    outline carve into the cell when [row + col] is even, and all of them
    bulge out of it when [row + col] is odd. *)
Theorem piece_arcs_same_side (row col : Z) :
  inGrid row col →
  Forall (λ a, ∃ p, a = Some p
                    ∧ if Z.even (row + col) then insideCell p else outsideCell p)
         (arcApexes (penAt (0, 0)) (buildPiecePath (getEdges row col))).
Proof.
  intros H.
  grid_cases row col H;
    match goal with
    | |- Forall _ ?l => let l' := eval vm_compute in l in change l with l'
    end;
    match goal with
    | |- context [Z.even ?e] =>
        let b := eval vm_compute in (Z.even e) in change (Z.even e) with b
    end;
    cbv iota;
    repeat (apply Forall_cons; split; [eexists; split; [reflexivity |] |]);
    try apply Forall_nil_2;
    unfold insideCell, outsideCell; cbn; lia.
Qed.

Lemma piece_arcs_same_side_witness :
  Forall (λ a, ∃ p, a = Some p
                    ∧ if Z.even (1 + 2) then insideCell p else outsideCell p)
         (arcApexes (penAt (0, 0)) (buildPiecePath (getEdges 1 2))).
Proof. apply (piece_arcs_same_side 1 2). unfold inGrid, ROWS, COLS. lia. Defined.

(** X19. Along every shared edge of the grid the two pieces draw the same
    half circle: the arc of the right edge of (row, col) passes through
    the point through which the arc of the left edge of (row, col + 1)
    passes, one cell width further; likewise bottom against top. *)
Theorem shared_edges_coincide (row col : Z) :
  inGrid row col →
  (col + 1 < COLS →
   ∃ p, rightArc (Edges.right (getEdges row col)) = [Some p]
        ∧ leftArc (Edges.left (getEdges row (col + 1))) = [Some (p.1 - 100, p.2)]
        ∧ 0 < p.2 < 100)
  ∧ (row + 1 < ROWS →
     ∃ p, bottomArc (Edges.bottom (getEdges row col)) = [Some p]
          ∧ topArc (Edges.top (getEdges (row + 1) col)) = [Some (p.1, p.2 - 100)]
          ∧ 0 < p.1 < 100).
Proof.
  intros [Hr Hc]. unfold getEdges.
  cbn [Edges.top Edges.right Edges.bottom Edges.left]. split.
  - intros Hn.
    destruct (Z.eqb_spec col (COLS - 1)) as [E | _]; [lia |].
    destruct (Z.eqb_spec (col + 1) 0) as [E | _]; [lia |].
    replace (col + 1 - 1) with col by lia.
    destruct (tab_cases row col) as [-> | ->]; eexists;
      (split; [reflexivity | split; [reflexivity | vm_compute; split; reflexivity]]).
  - intros Hn.
    destruct (Z.eqb_spec row (ROWS - 1)) as [E | _]; [lia |].
    destruct (Z.eqb_spec (row + 1) 0) as [E | _]; [lia |].
    replace (row + 1 - 1) with row by lia.
    destruct (tab_cases row col) as [-> | ->]; eexists;
      (split; [reflexivity | split; [reflexivity | vm_compute; split; reflexivity]]).
Qed.

Lemma shared_edges_coincide_witness :
  (∃ p, rightArc (Edges.right (getEdges 1 1)) = [Some p]
        ∧ leftArc (Edges.left (getEdges 1 (1 + 1))) = [Some (p.1 - 100, p.2)]
        ∧ 0 < p.2 < 100)
  ∧ (∃ p, bottomArc (Edges.bottom (getEdges 1 1)) = [Some p]
          ∧ topArc (Edges.top (getEdges (1 + 1) 1)) = [Some (p.1, p.2 - 100)]
          ∧ 0 < p.1 < 100).
Proof.
  destruct (shared_edges_coincide 1 1) as [H V]; [unfold inGrid, ROWS, COLS; lia |].
  split; [apply H | apply V]; unfold ROWS, COLS; lia.
Defined.

(** X20. The outline of a piece of the grid has one arc per neighbouring
    cell: four in the middle, three on a side, two in a corner. *)
Theorem arc_count_is_neighbour_count (row col : Z) :
  inGrid row col →
  length (arcApexes (penAt (0, 0)) (buildPiecePath (getEdges row col)))
  = ((if (row =? 0)%Z then 0 else 1) + (if (col =? COLS - 1)%Z then 0 else 1)
     + (if (row =? ROWS - 1)%Z then 0 else 1) + (if (col =? 0)%Z then 0 else 1))%nat.
Proof. intros H. grid_cases row col H; reflexivity. Qed.

Lemma arc_count_is_neighbour_count_witness :
  length (arcApexes (penAt (0, 0)) (buildPiecePath (getEdges 0 3)))
  = ((if (0 =? 0)%Z then 0 else 1) + (if (3 =? COLS - 1)%Z then 0 else 1)
     + (if (0 =? ROWS - 1)%Z then 0 else 1) + (if (3 =? 0)%Z then 0 else 1))%nat.
Proof. apply (arc_count_is_neighbour_count 0 3). unfold inGrid, ROWS, COLS. lia. Defined.

Lemma pathVertices_app (p q : list Cmd) :
  pathVertices (p ++ q) = pathVertices p ++ pathVertices q.
Proof. unfold pathVertices. apply omap_app. Qed.

Ltac edge_cases edge :=
  destruct (edge =? 0); [| destruct (edge =? 1)].

Ltac all_in_mask :=
  match goal with
  | |- Forall _ ?l => let l' := eval vm_compute in l in change l with l'
  end;
  repeat (apply Forall_cons; split); try apply Forall_nil_2;
  try (eexists; split; [reflexivity |]);
  unfold inBounds, maskBounds, tabRadius; cbn; lia.

(** X21. The mask of a drawing holds the whole outline, whatever the four
    codes are: every point the path names and the far point of every arc
    lies within [maskBounds tabRadius]; and every arc is a true half
    circle (its ends are a diameter apart). *)
Theorem outline_within_mask (edges : Edges.t) :
  Forall (inBounds (maskBounds tabRadius)) (pathVertices (buildPiecePath edges))
  ∧ Forall (λ a, ∃ p, a = Some p ∧ inBounds (maskBounds tabRadius) p)
           (arcApexes (penAt (0, 0)) (buildPiecePath edges)).
Proof.
  split.
  - unfold buildPiecePath. rewrite !pathVertices_app, !Forall_app.
    unfold edgePathTop, edgePathRight, edgePathBottom, edgePathLeft.
    repeat split.
    + all_in_mask.
    + edge_cases (Edges.top edges); all_in_mask.
    + edge_cases (Edges.right edges); all_in_mask.
    + edge_cases (Edges.bottom edges); all_in_mask.
    + edge_cases (Edges.left edges); all_in_mask.
    + all_in_mask.
  - rewrite buildPiecePath_arcs, !Forall_app.
    unfold topArc, rightArc, bottomArc, leftArc, arcsFrom,
      edgePathTop, edgePathRight, edgePathBottom, edgePathLeft.
    repeat split.
    + edge_cases (Edges.top edges); all_in_mask.
    + edge_cases (Edges.right edges); all_in_mask.
    + edge_cases (Edges.bottom edges); all_in_mask.
    + edge_cases (Edges.left edges); all_in_mask.
Qed.

(* ===================================================================== *)
(** ** Scatter layout: further facts *)
(* ===================================================================== *)

Section ScatterMore.

Variable random : N → float.
Variable hypot : float → float → float.

Lemma forEachPiece_app (f : Frame.t) (ps1 ps2 : list Piece.t)
      (acc : list Pos.t * list bool) (n : N) :
  forEachPiece random hypot f (ps1 ++ ps2) acc n
  = forEachPiece random hypot f ps2
      (forEachPiece random hypot f ps1 acc n).1
      (forEachPiece random hypot f ps1 acc n).2.
Proof.
  revert acc n. induction ps1 as [| piece ps1 IH]; intros acc n.
  - cbn [app forEachPiece]. unfold ret. cbn [fst snd]. reflexivity.
  - cbn [app]. rewrite !forEachPiece_step. apply IH.
Qed.

Lemma forEachPiece_prefix (f : Frame.t) (ps : list Piece.t)
      (acc : list Pos.t * list bool) (n : N) :
  ∃ rest, (forEachPiece random hypot f ps acc n).1.1 = acc.1 ++ rest
          ∧ length rest = length ps.
Proof.
  revert acc n. induction ps as [| piece ps IH]; intros acc n.
  - exists []. cbn. rewrite app_nil_r. auto.
  - rewrite forEachPiece_step.
    destruct (IH ((placeOne random hypot f acc.1 n).1.1,
                  acc.2 ++ [(placeOne random hypot f acc.1 n).1.2])
                 (placeOne random hypot f acc.1 n).2) as (rest & -> & Hlen).
    cbn [fst snd].
    destruct (placeOne_cases random hypot f acc.1 n) as [(k & _ & ->) | [_ ->]];
      cbn [fst snd]; rewrite <- app_assoc; eexists; (split; [reflexivity |]);
      cbn; lia.
Qed.

Lemma placeOne_draws (f : Frame.t) (positions : list Pos.t) (n : N) :
  (n + 3 <= (placeOne random hypot f positions n).2
   <= n + 3 * (N.of_nat maxAttempts + 1))%N
  ∧ ((placeOne random hypot f positions n).1.2 = false
     ↔ (placeOne random hypot f positions n).2 = (n + 3 * (N.of_nat maxAttempts + 1))%N)
  ∧ ∃ k : N, ((placeOne random hypot f positions n).2 = n + 3 * k)%N.
Proof.
  destruct (placeOne_cases random hypot f positions n)
    as [(k & (Hk & _) & ->) | [_ ->]]; cbn [fst snd]; unfold attemptDraw.
  - split; [lia |]. split; [split; [discriminate | lia] |].
    exists (N.of_nat (S k)). reflexivity.
  - split; [lia |]. split; [split; [lia | reflexivity] |].
    exists (N.of_nat (S maxAttempts)). reflexivity.
Qed.

Lemma forEachPiece_draws (f : Frame.t) (ps : list Piece.t)
      (acc : list Pos.t * list bool) (n : N) :
  (n + 3 * N.of_nat (length ps) <= (forEachPiece random hypot f ps acc n).2
   <= n + 3 * (N.of_nat maxAttempts + 1) * N.of_nat (length ps))%N.
Proof.
  revert acc n. induction ps as [| piece ps IH]; intros acc n.
  - cbn. lia.
  - rewrite forEachPiece_step. cbn [length].
    pose proof (placeOne_draws f acc.1 n) as (Hone & _).
    pose proof (IH ((placeOne random hypot f acc.1 n).1.1,
                    acc.2 ++ [(placeOne random hypot f acc.1 n).1.2])
                   (placeOne random hypot f acc.1 n).2) as Hrest.
    lia.
Qed.

Lemma clear_nil (f : Frame.t) (candidate : Pos.t) : clear hypot f [] candidate = true.
Proof. reflexivity. Qed.

Lemma placeOne_nil (f : Frame.t) (n : N) :
  placeOne random hypot f [] n = (([candidateAt random f n], true), (n + 3)%N).
Proof.
  destruct (placeOne_cases random hypot f [] n) as [(k & (Hk & _ & Hbefore) & ->) | [Hex _]].
  - destruct k as [| k].
    + unfold attemptDraw. cbn [app]. repeat f_equal; lia.
    + specialize (Hbefore 0%nat ltac:(lia)). rewrite clear_nil in Hbefore. discriminate.
  - specialize (Hex 0%nat ltac:(unfold maxAttempts; lia)).
    rewrite clear_nil in Hex. discriminate.
Qed.

Lemma forEachPiece_accepted_clear (f : Frame.t) (ps : list Piece.t)
      (acc : list Pos.t * list bool) (n : N) :
  length acc.1 = length acc.2 →
  (∀ i j p q, (i < j)%nat → acc.1 !! i = Some p → acc.1 !! j = Some q →
              acc.2 !! j = Some true → farEnough hypot f p q = true) →
  length (forEachPiece random hypot f ps acc n).1.1
  = length (forEachPiece random hypot f ps acc n).1.2
  ∧ ∀ i j p q, (i < j)%nat →
      (forEachPiece random hypot f ps acc n).1.1 !! i = Some p →
      (forEachPiece random hypot f ps acc n).1.1 !! j = Some q →
      (forEachPiece random hypot f ps acc n).1.2 !! j = Some true →
      farEnough hypot f p q = true.
Proof.
  revert acc n. induction ps as [| piece ps IH]; intros acc n Hlen Hinv.
  - cbn. auto.
  - rewrite forEachPiece_step. apply IH; cbn [fst snd].
    + rewrite placeOne_length, length_app. cbn. lia.
    + intros i j p q Hij Hp Hq Hflag.
      destruct (placeOne_cases random hypot f acc.1 n) as [(k & Hfirst & Hrun) | [_ Hrun]];
        rewrite Hrun in Hp, Hq, Hflag; cbn [fst snd] in Hp, Hq, Hflag.
      * assert (Hj : (j < length (acc.1 ++ [candidateAt random f (attemptDraw n k)]))%nat)
          by (apply lookup_lt_is_Some; eauto).
        rewrite length_app in Hj. cbn in Hj.
        rewrite lookup_app_l in Hp by lia.
        destruct (decide (j < length acc.1)%nat) as [Hlt | Hge].
        -- rewrite lookup_app_l in Hq by lia. rewrite lookup_app_l in Hflag by lia.
           exact (Hinv i j p q Hij Hp Hq Hflag).
        -- rewrite lookup_app_r in Hq by lia.
           replace (j - length acc.1)%nat with 0%nat in Hq by lia.
           injection Hq as <-.
           destruct Hfirst as (_ & Hclear & _).
           unfold clear in Hclear. rewrite forallb_forall in Hclear.
           apply Hclear, list_elem_of_In, list_elem_of_lookup. eauto.
      * assert (Hj : (j < length (acc.1 ++ [candidateAt random f (attemptDraw n maxAttempts)]))%nat)
          by (apply lookup_lt_is_Some; eauto).
        rewrite length_app in Hj. cbn in Hj.
        rewrite lookup_app_l in Hp by lia.
        destruct (decide (j < length acc.1)%nat) as [Hlt | Hge].
        -- rewrite lookup_app_l in Hq by lia. rewrite lookup_app_l in Hflag by lia.
           exact (Hinv i j p q Hij Hp Hq Hflag).
        -- rewrite lookup_app_r in Hflag by lia.
           replace (j - length acc.2)%nat with 0%nat in Hflag by lia.
           discriminate.
Qed.

End ScatterMore.

(** X22. The first piece never falls back: with nothing placed yet its
    first candidate is accepted, so the first position of every layout is
    the candidate of the first three draws. *)
Theorem first_piece_first_attempt (random : N → float) (hypot : float → float → float)
        (win : Window.t) (rect : Rect.t) (n : N) :
  (scatterPositions random hypot win rect n).1.1 !! 0%nat
  = Some (candidateAt random (frameOf win rect) n)
  ∧ (scatterPositions random hypot win rect n).1.2 !! 0%nat = Some true.
Proof.
  rewrite scatterPositions_eq.
  destruct pieces as [| piece ps] eqn:E; [discriminate E |].
  rewrite forEachPiece_step, placeOne_nil. cbn [fst snd app].
  destruct (forEachPiece_prefix random hypot (frameOf win rect) ps
              ([candidateAt random (frameOf win rect) n], [true]) (n + 3)%N)
    as (rest & -> & _).
  destruct (forEachPiece_flags random hypot (frameOf win rect) ps
              ([candidateAt random (frameOf win rect) n], [true]) (n + 3)%N)
    as (rest' & -> & _).
  split; reflexivity.
Qed.

(** X23. The work of a layout is bounded.  A piece takes at least 3 draws
    of [Math.random] and at most 3 * 601, always a multiple of 3, and the
    maximum exactly when it falls back; a whole layout of the 16 pieces
    takes between 48 and 28848 draws. *)
Theorem scatter_draws_bounded (random : N → float) (hypot : float → float → float) :
  (∀ (f : Frame.t) (positions : list Pos.t) (n : N),
     (n + 3 <= (placeOne random hypot f positions n).2 <= n + 1803)%N
     ∧ ((placeOne random hypot f positions n).1.2 = false
        ↔ (placeOne random hypot f positions n).2 = (n + 1803)%N)
     ∧ ∃ k : N, ((placeOne random hypot f positions n).2 = n + 3 * k)%N)
  ∧ (∀ (win : Window.t) (rect : Rect.t) (n : N),
       (n + 48 <= (scatterPositions random hypot win rect n).2 <= n + 28848)%N).
Proof.
  assert (Hmax : (3 * (N.of_nat maxAttempts + 1) = 1803)%N) by reflexivity.
  split.
  - intros f positions n.
    pose proof (placeOne_draws random hypot f positions n) as H.
    rewrite Hmax in H. exact H.
  - intros win rect n. rewrite scatterPositions_eq.
    pose proof (forEachPiece_draws random hypot (frameOf win rect) pieces ([], []) n) as H.
    rewrite Hmax in H.
    assert (Hlen : N.of_nat (length pieces) = 16%N) by reflexivity.
    rewrite Hlen in H. lia.
Qed.

(** X26. Placement is sequential: laying out a list of pieces is laying
    out its first part and then the rest from the positions and the draw
    count that the first part left, and the positions of the first part
    are not touched by the rest. *)
Theorem forEachPiece_sequential (random : N → float) (hypot : float → float → float)
        (f : Frame.t) (ps1 ps2 : list Piece.t) (acc : list Pos.t * list bool) (n : N) :
  forEachPiece random hypot f (ps1 ++ ps2) acc n
  = forEachPiece random hypot f ps2
      (forEachPiece random hypot f ps1 acc n).1
      (forEachPiece random hypot f ps1 acc n).2
  ∧ take (length acc.1 + length ps1)
         (forEachPiece random hypot f (ps1 ++ ps2) acc n).1.1
    = (forEachPiece random hypot f ps1 acc n).1.1.
Proof.
  split; [apply forEachPiece_app |]. rewrite forEachPiece_app.
  destruct (forEachPiece_prefix random hypot f ps2
              (forEachPiece random hypot f ps1 acc n).1
              (forEachPiece random hypot f ps1 acc n).2) as (rest & -> & _).
  rewrite <- (forEachPiece_length random hypot f ps1 acc n).
  apply take_app_length.
Qed.

Lemma entriesFrom_short (positions : list Pos.t) (index : nat) (ps : list Piece.t) :
  ps ≠ [] → (length positions < index + length ps)%nat →
  entriesFrom positions index ps = None.
Proof.
  revert index. induction ps as [| piece ps IH]; intros index Hne Hlen; [contradiction |].
  cbn [entriesFrom length] in *.
  destruct (positions !! index) as [pos |] eqn:Hpos; [| reflexivity].
  apply lookup_lt_Some in Hpos.
  destruct ps as [| piece' ps]; [cbn in Hlen; lia |].
  rewrite IH; [reflexivity | discriminate | cbn [length] in *; lia].
Qed.

(** X27. Building the entries reads one position per piece: it succeeds
    exactly when the array of positions is long enough for the pieces
    asked for, and raises otherwise; on success it returns one entry per
    piece, keyed by the ids of the pieces in order. *)
Theorem entriesFrom_defined_iff (positions : list Pos.t) (index : nat) (ps : list Piece.t) :
  (is_Some (entriesFrom positions index ps)
   ↔ ps = [] ∨ (index + length ps <= length positions)%nat)
  ∧ ∀ entries, entriesFrom positions index ps = Some entries →
               entries.*1 = Piece.id <$> ps.
Proof.
  split.
  - split.
    + intros [entries H]. destruct ps as [| piece ps]; [auto | right].
      destruct (decide (index + length (piece :: ps) <= length positions)%nat)
        as [Hle | Hgt]; [exact Hle |].
      rewrite entriesFrom_short in H; [discriminate | discriminate | lia].
    + intros [-> | Hle]; [cbn; eauto |].
      destruct (entriesFrom_total positions ps index Hle) as (entries & -> & _). eauto.
  - intros entries H.
    destruct (decide (index + length ps <= length positions)%nat) as [Hle | Hgt].
    + destruct (entriesFrom_total positions ps index Hle) as (entries' & H' & Hkeys & _).
      congruence.
    + destruct ps as [| piece ps]; [cbn in H; injection H as <-; reflexivity |].
      rewrite entriesFrom_short in H; [discriminate | discriminate | lia].
Qed.

Lemma entriesFrom_defined_iff_witness :
  [("p1"%string, entryOf (Pos.mk 0 0 0))].*1 = Piece.id <$> [Piece.mk "p1" "1" 0].
Proof.
  apply (proj2 (entriesFrom_defined_iff [Pos.mk 0 0 0] 0 [Piece.mk "p1" "1" 0])).
  reflexivity.
Defined.

(* ===================================================================== *)
(** ** Binary64 facts used by the layout *)
(* ===================================================================== *)

Lemma shr_1_nonneg (mrs : shr_record) : 0 <= shr_m mrs → 0 <= shr_m (shr_1 mrs).
Proof. destruct mrs as [m r s]. destruct m as [| [p | p |] | p]; cbn; lia. Qed.

Lemma iter_shr_1_nonneg (p : positive) (mrs : shr_record) :
  0 <= shr_m mrs → 0 <= shr_m (SpecFloat.iter_pos shr_1 p mrs).
Proof.
  revert mrs. induction p as [p IH | p IH |]; intros mrs H; cbn [SpecFloat.iter_pos].
  - apply IH, IH, shr_1_nonneg, H.
  - apply IH, IH, H.
  - apply shr_1_nonneg, H.
Qed.

Lemma shr_fexp_nonneg (m e : Z) (l : location) :
  0 <= m → 0 <= shr_m (shr_fexp prec emax m e l).1.
Proof.
  intros H. unfold shr_fexp, shr.
  assert (H0 : 0 <= shr_m (shr_record_of_loc m l)) by (destruct l as [| []]; exact H).
  destruct (fexp prec emax (Zdigits2 m + e) - e); cbn [fst]; auto using iter_shr_1_nonneg.
Qed.

Lemma round_nearest_even_nonneg (m : Z) (l : location) :
  0 <= m → 0 <= round_nearest_even m l.
Proof. intros H. destruct l as [| []]; cbn; [| destruct (Z.even m) | |]; lia. Qed.

Lemma binary_round_aux_number (sx : bool) (m e : Z) (l : location) :
  0 <= m → binary_round_aux prec emax sx m e l ≠ S754_nan.
Proof.
  intros H. unfold binary_round_aux.
  pose proof (shr_fexp_nonneg m e l H) as H1.
  destruct (shr_fexp prec emax m e l) as [mrs' e'].
  cbn [fst] in H1.
  pose proof (shr_fexp_nonneg _ e' loc_Exact
                (round_nearest_even_nonneg _ (loc_of_shr_record mrs') H1)) as H2.
  destruct (shr_fexp prec emax _ e' loc_Exact) as [mrs'' e''].
  cbn [fst] in H2.
  destruct (shr_m mrs''); [discriminate | | lia].
  destruct (e'' <=? emax - prec); discriminate.
Qed.

Lemma binary_normalize_number (m e : Z) (szero : bool) :
  binary_normalize prec emax m e szero ≠ S754_nan.
Proof.
  destruct m; cbn [binary_normalize]; [discriminate | |];
    unfold binary_round; destruct (shl_align _ _ _); apply binary_round_aux_number; lia.
Qed.

Lemma finiteNumber_spec (x : float) : finiteNumber x → sfFinite (Prim2SF x).
Proof.
  unfold finiteNumber. rewrite FloatAxioms.ltb_spec, FloatAxioms.abs_spec.
  replace (Prim2SF infinity) with (S754_infinity false) by reflexivity.
  destruct (Prim2SF x) as [s | s | | s m e]; cbn; try discriminate; auto.
Qed.

Lemma SFadd_number (a b : spec_float) :
  sfFinite a → sfFinite b → SF64add a b ≠ S754_nan.
Proof.
  destruct a as [sa | | | sa ma ea], b as [sb | | | sb mb eb]; cbn; try contradiction;
    intros _ _; try discriminate.
  - destruct sa, sb; discriminate.
  - apply binary_normalize_number.
Qed.

Lemma SFdiv_two_number (a : spec_float) :
  a ≠ S754_nan → SF64div a (Prim2SF 2) ≠ S754_nan.
Proof.
  replace (Prim2SF 2) with (S754_finite false 4503599627370496 (-51)) by reflexivity.
  destruct a as [sa | sa | | sa ma ea]; cbn [SF64div SFdiv]; intros Ha;
    try discriminate; [contradiction |].
  unfold SF64div, SFdiv.
  destruct (SFdiv_core_binary prec emax (Z.pos ma) ea 4503599627370496 (-51))
    as [[mz ez] lz] eqn:E.
  apply binary_round_aux_number.
  unfold SFdiv_core_binary in E.
  match type of E with
  | context [Z.div_eucl ?a ?b] =>
      pose proof (Z_div_mod a b ltac:(lia)) as Hd; destruct (Z.div_eucl a b) as [q r];
      assert (0 <= a)
  end.
  { destruct (_ - _ - _); [lia | apply Z.shiftl_nonneg; lia | lia]. }
  injection E as <- _ _. nia.
Qed.

Lemma SFcompare_refl (a : spec_float) : a ≠ S754_nan → SFcompare a a = Some Eq.
Proof.
  destruct a as [s | s | | s m e]; intros H; cbn; try reflexivity; [destruct s; reflexivity | contradiction |].
  rewrite Z.compare_refl, Pos.compare_cont_refl. destruct s; reflexivity.
Qed.

Lemma SFcompare_Lt_Gt (a b : spec_float) :
  SFcompare a b = Some Lt → SFcompare b a = Some Gt.
Proof.
  destruct a as [sa | sa | | sa ma ea], b as [sb | sb | | sb mb eb]; cbn;
    try discriminate; try (destruct sa; discriminate); try (destruct sb; discriminate);
    try (destruct sa, sb; (discriminate || reflexivity)).
  destruct sa, sb; try discriminate; try reflexivity;
    rewrite (Z.compare_antisym ea eb);
    change (Pos.compare_cont Eq mb ma) with (Pos.compare_cont (CompOpp Eq) mb ma);
    rewrite <- (Pos.compare_cont_antisym ma mb Eq);
    destruct (ea ?= eb); cbn; try discriminate; try reflexivity;
    destruct (Pos.compare_cont Eq ma mb); cbn; (discriminate || reflexivity).
Qed.

Lemma ltb_leb_false (x y : float) : (y <? x)%float = true → (x <=? y)%float = false.
Proof.
  rewrite FloatAxioms.ltb_spec, FloatAxioms.leb_spec. unfold SFltb, SFleb.
  destruct (SFcompare (Prim2SF y) (Prim2SF x)) as [[] |] eqn:E; try discriminate.
  intros _. rewrite (SFcompare_Lt_Gt _ _ E). reflexivity.
Qed.

Lemma isNumber_leb_refl (x : float) : isNumber x → (x <=? x)%float = true.
Proof.
  unfold isNumber. rewrite FloatAxioms.eqb_spec, FloatAxioms.leb_spec. unfold SFeqb, SFleb.
  destruct (SFcompare (Prim2SF x) (Prim2SF x)) as [[] |]; (discriminate || reflexivity).
Qed.

Lemma midpoint_number (lo hi : float) :
  finiteNumber lo → finiteNumber hi → isNumber ((lo + hi) / 2)%float.
Proof.
  intros Hlo Hhi. unfold isNumber. rewrite FloatAxioms.eqb_spec. unfold SFeqb.
  rewrite SFcompare_refl; [reflexivity |].
  rewrite div_spec, add_spec.
  apply SFdiv_two_number, SFadd_number; apply finiteNumber_spec; assumption.
Qed.

(* ===================================================================== *)
(** ** The layout against the distances and ranges written out *)
(* ===================================================================== *)

Lemma minDistance_frameOf (win : Window.t) (rect : Rect.t) :
  Frame.minDistance (frameOf win rect) = minSeparation win.
Proof. reflexivity. Qed.

Lemma range_frameOf (win : Window.t) (rect : Rect.t) :
  Frame.minX (frameOf win rect) = rangeMin win (anchorX rect)
  ∧ Frame.maxX (frameOf win rect) = rangeMax win (Window.innerWidth win) (anchorX rect)
  ∧ Frame.minY (frameOf win rect) = rangeMin win (anchorY rect)
  ∧ Frame.maxY (frameOf win rect) = rangeMax win (Window.innerHeight win) (anchorY rect).
Proof. repeat split; reflexivity. Qed.

Lemma farEnough_apart (hypot : float → float → float) (f : Frame.t) (p q : Pos.t) :
  farEnough hypot f p q = true ↔ atLeastApart hypot (Frame.minDistance f) p q.
Proof. unfold farEnough, atLeastApart. reflexivity. Qed.

Lemma clear_clearOfAll (hypot : float → float → float) (f : Frame.t)
      (positions : list Pos.t) (candidate : Pos.t) :
  clear hypot f positions candidate = true
  ↔ clearOfAll hypot (Frame.minDistance f) positions candidate.
Proof.
  unfold clear, clearOfAll. rewrite forallb_forall. split.
  - intros H p Hp. apply farEnough_apart, H, list_elem_of_In, Hp.
  - intros H p Hp. apply farEnough_apart, H, list_elem_of_In, Hp.
Qed.

Lemma not_clear_clearOfAll (hypot : float → float → float) (f : Frame.t)
      (positions : list Pos.t) (candidate : Pos.t) :
  clear hypot f positions candidate = false
  ↔ ¬ clearOfAll hypot (Frame.minDistance f) positions candidate.
Proof. rewrite <- clear_clearOfAll. symmetry. apply not_true_iff_false. Qed.

Lemma not_clear_too_close (hypot : float → float → float) (f : Frame.t)
      (positions : list Pos.t) (candidate : Pos.t) :
  clear hypot f positions candidate = false
  ↔ ∃ p, p ∈ positions ∧ ¬ atLeastApart hypot (Frame.minDistance f) p candidate.
Proof.
  split.
  - unfold clear. induction positions as [| p positions IH]; [discriminate |].
    cbn [forallb]. destruct (farEnough hypot f p candidate) eqn:E; cbn [andb].
    + intros H. destruct (IH H) as (q & Hq & Hnear). exists q. split; [right |]; assumption.
    + intros _. exists p. split; [left |].
      rewrite <- farEnough_apart, E. discriminate.
  - intros (p & Hp & Hnear). apply not_clear_clearOfAll. intros H. exact (Hnear (H p Hp)).
Qed.

Lemma firstClear_firstFar (random : N → float) (hypot : float → float → float)
      (f : Frame.t) (positions : list Pos.t) (n : N) (k : nat) :
  firstClear random hypot f positions n k
  ↔ firstFarCandidate random hypot f (Frame.minDistance f) positions n k.
Proof.
  unfold firstClear, firstFarCandidate. rewrite clear_clearOfAll.
  setoid_rewrite not_clear_clearOfAll. reflexivity.
Qed.

Lemma budgetExhausted_allTooClose (random : N → float) (hypot : float → float → float)
      (f : Frame.t) (positions : list Pos.t) (n : N) :
  budgetExhausted random hypot f positions n
  ↔ allTooClose random hypot f (Frame.minDistance f) positions n.
Proof.
  unfold budgetExhausted, allTooClose. setoid_rewrite not_clear_too_close. reflexivity.
Qed.

Section ScatterRun.

Variable random : N → float.
Variable hypot : float → float → float.

(** The piece in the middle of a run: what was placed before it is the
    run over the pieces before it, and its own position and flag are
    those of the loop body started from there. *)
Lemma forEachPiece_middle (f : Frame.t) (ps1 : list Piece.t) (piece : Piece.t)
      (ps2 : list Piece.t) (n : N) :
  length (forEachPiece random hypot f ps1 ([], []) n).1.1 = length ps1
  ∧ take (length ps1) (forEachPiece random hypot f (ps1 ++ piece :: ps2) ([], []) n).1.1
    = (forEachPiece random hypot f ps1 ([], []) n).1.1
  ∧ (forEachPiece random hypot f (ps1 ++ piece :: ps2) ([], []) n).1.1 !! length ps1
    = (placeOne random hypot f (forEachPiece random hypot f ps1 ([], []) n).1.1
                (forEachPiece random hypot f ps1 ([], []) n).2).1.1 !! length ps1
  ∧ (forEachPiece random hypot f (ps1 ++ piece :: ps2) ([], []) n).1.2 !! length ps1
    = Some (placeOne random hypot f (forEachPiece random hypot f ps1 ([], []) n).1.1
                     (forEachPiece random hypot f ps1 ([], []) n).2).1.2.
Proof.
  assert (Hlen : length (forEachPiece random hypot f ps1 ([], []) n).1.1 = length ps1)
    by (rewrite forEachPiece_length; reflexivity).
  destruct (forEachPiece_flags random hypot f ps1 ([], []) n) as (fl & Hfl & Hfllen).
  cbn [snd app] in Hfl.
  split; [exact Hlen |].
  rewrite forEachPiece_app, forEachPiece_step.
  set (pre := forEachPiece random hypot f ps1 ([], []) n) in *.
  set (one := placeOne random hypot f pre.1.1 pre.2).
  destruct (forEachPiece_prefix random hypot f ps2 (one.1.1, pre.1.2 ++ [one.1.2]) one.2)
    as (rest & -> & _).
  destruct (forEachPiece_flags random hypot f ps2 (one.1.1, pre.1.2 ++ [one.1.2]) one.2)
    as (rest' & -> & _).
  cbn [fst snd].
  pose proof (placeOne_length random hypot f pre.1.1 pre.2) as Hone. fold one in Hone.
  assert (Hpre : ∃ c, one.1.1 = pre.1.1 ++ [c]).
  { subst one. destruct (placeOne_cases random hypot f pre.1.1 pre.2)
      as [(k & _ & ->) | [_ ->]]; cbn [fst]; eauto. }
  destruct Hpre as [c Hc].
  split; [| split].
  - rewrite Hc, <- app_assoc, <- Hlen. apply take_app_length.
  - rewrite lookup_app_l by lia. reflexivity.
  - rewrite Hfl, <- app_assoc, lookup_app_r by lia.
    replace (length ps1 - length fl)%nat with 0%nat by lia. reflexivity.
Qed.

Lemma forEachPiece_accepted_at (f : Frame.t) (ps : list Piece.t) (n : N) (i : nat) :
  (forEachPiece random hypot f ps ([], []) n).1.2 !! i = Some true →
  ∃ k, firstClear random hypot f
         (take i (forEachPiece random hypot f ps ([], []) n).1.1)
         (forEachPiece random hypot f (take i ps) ([], []) n).2 k
       ∧ (forEachPiece random hypot f ps ([], []) n).1.1 !! i
         = Some (candidateAt random f
                   (attemptDraw (forEachPiece random hypot f (take i ps) ([], []) n).2 k)).
Proof.
  intros Hflag.
  destruct (forEachPiece_flags random hypot f ps ([], []) n) as (fl & Hfl & Hfllen).
  cbn [snd app] in Hfl.
  assert (Hi : (i < length ps)%nat).
  { apply lookup_lt_Some in Hflag. rewrite Hfl in Hflag. lia. }
  destruct (lookup_lt_is_Some_2 ps i Hi) as [piece Hpiece].
  pose proof (forEachPiece_middle f (take i ps) piece (drop (S i) ps) n) as Hmid.
  rewrite (take_drop_middle ps i piece Hpiece) in Hmid.
  rewrite length_take_le in Hmid by lia.
  destruct Hmid as (Hlen & Htake & Hpos & Hfl').
  rewrite Hfl' in Hflag. injection Hflag as Hflag.
  rewrite Htake, Hpos.
  destruct (placeOne_cases random hypot f
              (forEachPiece random hypot f (take i ps) ([], []) n).1.1
              (forEachPiece random hypot f (take i ps) ([], []) n).2)
    as [(k & Hfirst & Hrun) | [_ Hrun]]; rewrite Hrun in Hflag |- *; cbn [fst snd] in *;
    [| discriminate].
  exists k. split; [exact Hfirst |].
  rewrite lookup_app_r by lia. replace (i - _)%nat with 0%nat by lia. reflexivity.
Qed.

End ScatterRun.

(** C3. The code does not keep this on the right and left edges.  The
    piece of cell (0,0) has code 1 (TAB) on its right edge, and the arc
    [edgePathRight] draws for it, with sweep flag 0, passes through
    (78,50), inside the cell; [edgePathLeft] draws code 1 through (22,50),
    inside as well, and both draw code -1 (BLANK) outside the cell.  The
    other two edge functions, [edgePathTop] and [edgePathBottom], draw
    code 1 outside the cell. *)
Theorem right_left_tab_drawn_inward :
  Edges.right (getEdges 0 0) = TAB
  ∧ edgePathRight TAB = [LineTo 100 28; Arc 22 22 0 0 0 100 72; LineTo 100 100]
  ∧ arcApexes (penAt (0, 0)) (buildPiecePath (getEdges 0 0))
    = [Some (78, 50); Some (50, 78)]
  ∧ (rightArc TAB = [Some (78, 50)] ∧ insideCell (78, 50) ∧ ¬ outsideCell (78, 50))
  ∧ (leftArc TAB = [Some (22, 50)] ∧ insideCell (22, 50) ∧ ¬ outsideCell (22, 50))
  ∧ (rightArc BLANK = [Some (122, 50)] ∧ outsideCell (122, 50))
  ∧ (leftArc BLANK = [Some (-22, 50)] ∧ outsideCell (-22, 50))
  ∧ (topArc TAB = [Some (50, -22)] ∧ outsideCell (50, -22))
  ∧ (bottomArc TAB = [Some (50, 122)] ∧ outsideCell (50, 122)).
Proof.
  unfold insideCell, outsideCell.
  repeat split; try reflexivity; cbn; lia.
Qed.

Lemma firstClear_unique (random : N → float) (hypot : float → float → float)
      (f : Frame.t) (positions : list Pos.t) (n : N) (k k' : nat) :
  firstClear random hypot f positions n k → firstClear random hypot f positions n k' →
  k = k'.
Proof.
  intros (_ & Hc & Hb) (_ & Hc' & Hb').
  destruct (Nat.lt_total k k') as [Hlt | [E | Hgt]]; [| exact E |].
  - rewrite (Hb' k Hlt) in Hc. discriminate.
  - rewrite (Hb k' Hgt) in Hc'. discriminate.
Qed.

(** C7. With the minimum separation the visual size of a piece times 1.1:
    a piece is accepted within its budget exactly when one of its
    sampled candidates is the first whose distance ([Math.hypot] of the
    coordinate differences) to every position accepted before it is at
    least the minimum separation, and that candidate is the position it
    gets, for the loop body on any array and for every piece of a whole
    layout; a layout has a position and a flag for each
    of the pieces; and when every piece is accepted within budget, any
    two positions of the layout are at least the minimum separation
    apart. *)
Theorem scatter_first_clear (random : N → float) (hypot : float → float → float)
        (win : Window.t) (rect : Rect.t) :
  (∀ (positions : list Pos.t) (n : N),
     ((placeOne random hypot (frameOf win rect) positions n).1.2 = true
      ↔ ∃ k, firstFarCandidate random hypot (frameOf win rect) (minSeparation win)
               positions n k)
     ∧ ∀ k, firstFarCandidate random hypot (frameOf win rect) (minSeparation win)
              positions n k →
            (placeOne random hypot (frameOf win rect) positions n).1.1
            = positions ++ [candidateAt random (frameOf win rect) (attemptDraw n k)])
  ∧ ∀ n : N,
      length (scatterPositions random hypot win rect n).1.1 = length pieces
      ∧ length (scatterPositions random hypot win rect n).1.2 = length pieces
      ∧ (∀ i : nat,
           (scatterPositions random hypot win rect n).1.2 !! i = Some true →
           ∃ k, firstFarCandidate random hypot (frameOf win rect) (minSeparation win)
                  (take i (scatterPositions random hypot win rect n).1.1)
                  (forEachPiece random hypot (frameOf win rect) (take i pieces)
                                ([], []) n).2
                  k
                ∧ (scatterPositions random hypot win rect n).1.1 !! i
                  = Some (candidateAt random (frameOf win rect)
                            (attemptDraw
                               (forEachPiece random hypot (frameOf win rect)
                                             (take i pieces) ([], []) n).2
                               k)))
      ∧ (Forall (eq true) (scatterPositions random hypot win rect n).1.2 →
         ∀ (i j : nat) (p q : Pos.t), (i < j)%nat →
           (scatterPositions random hypot win rect n).1.1 !! i = Some p →
           (scatterPositions random hypot win rect n).1.1 !! j = Some q →
           atLeastApart hypot (minSeparation win) p q).
Proof.
  split.
  - intros positions n.
    rewrite <- minDistance_frameOf with (rect := rect).
    setoid_rewrite <- firstClear_firstFar.
    destruct (placeOne_cases random hypot (frameOf win rect) positions n)
      as [(k & Hfirst & ->) | [Hex ->]]; cbn [fst snd].
    + split; [split; [eauto | reflexivity] |].
      intros k' Hfirst'. rewrite (firstClear_unique _ _ _ _ _ _ _ Hfirst' Hfirst).
      reflexivity.
    + split; [split; [discriminate |] |].
      * intros [k Hfirst]. exfalso.
        exact (firstClear_not_exhausted _ _ _ _ _ _ Hfirst Hex).
      * intros k Hfirst. exfalso.
        exact (firstClear_not_exhausted _ _ _ _ _ _ Hfirst Hex).
  - intros n. rewrite scatterPositions_eq. split; [| split; [| split]].
    + rewrite forEachPiece_length. reflexivity.
    + destruct (forEachPiece_flags random hypot (frameOf win rect) pieces ([], []) n)
        as (fl & -> & Hlen). exact Hlen.
    + intros i Hflag.
      destruct (forEachPiece_accepted_at random hypot (frameOf win rect) pieces n i Hflag)
        as (k & Hfirst & Hpos).
      exists k. split; [| exact Hpos].
      rewrite <- minDistance_frameOf with (rect := rect).
      apply firstClear_firstFar, Hfirst.
    + intros Hall i j p q Hij Hp Hq.
      rewrite <- minDistance_frameOf with (rect := rect).
      apply farEnough_apart.
      exact (forEachPiece_separated random hypot (frameOf win rect) pieces ([], []) n
               (separated_nil hypot _) Hall i j p q Hij Hp Hq).
Qed.

Lemma scatter_first_clear_witness :
  (∃ k, firstFarCandidate sampleHash hypotSqrt (frameOf wideWindow wideStage)
          (minSeparation wideWindow)
          [candidateAt sampleHash (frameOf wideWindow wideStage) 0%N] 3%N k
        ∧ (placeOne sampleHash hypotSqrt (frameOf wideWindow wideStage)
                    [candidateAt sampleHash (frameOf wideWindow wideStage) 0%N] 3%N).1.1
          = [candidateAt sampleHash (frameOf wideWindow wideStage) 0%N]
              ++ [candidateAt sampleHash (frameOf wideWindow wideStage) (attemptDraw 3%N k)])
  ∧ (∃ k, firstFarCandidate sampleHash hypotSqrt (frameOf wideWindow wideStage)
            (minSeparation wideWindow)
            (take 5 (scatterPositions sampleHash hypotSqrt wideWindow wideStage 0%N).1.1)
            (forEachPiece sampleHash hypotSqrt (frameOf wideWindow wideStage)
                          (take 5 pieces) ([], []) 0%N).2
            k
          ∧ (scatterPositions sampleHash hypotSqrt wideWindow wideStage 0%N).1.1 !! 5%nat
            = Some (candidateAt sampleHash (frameOf wideWindow wideStage)
                      (attemptDraw
                         (forEachPiece sampleHash hypotSqrt (frameOf wideWindow wideStage)
                                       (take 5 pieces) ([], []) 0%N).2
                         k)))
  ∧ ∃ p q,
      (scatterPositions sampleHash hypotSqrt wideWindow wideStage 0%N).1.1 !! 2%nat = Some p
      ∧ (scatterPositions sampleHash hypotSqrt wideWindow wideStage 0%N).1.1 !! 5%nat = Some q
      ∧ atLeastApart hypotSqrt (minSeparation wideWindow) p q.
Proof.
  destruct (scatter_first_clear sampleHash hypotSqrt wideWindow wideStage) as [Hone Hrun].
  destruct (Hrun 0%N) as (_ & _ & Hat & Hall).
  split; [| split].
  - destruct (Hone [candidateAt sampleHash (frameOf wideWindow wideStage) 0%N] 3%N)
      as [Hiff Hpos].
    destruct (proj1 Hiff ltac:(vm_compute; reflexivity)) as [k Hk].
    exists k. split; [exact Hk | exact (Hpos k Hk)].
  - apply Hat. vm_compute. reflexivity.
  - destruct ((scatterPositions sampleHash hypotSqrt wideWindow wideStage 0%N).1.1 !! 2%nat)
      as [p |] eqn:Hp; [| vm_compute in Hp; discriminate].
    destruct ((scatterPositions sampleHash hypotSqrt wideWindow wideStage 0%N).1.1 !! 5%nat)
      as [q |] eqn:Hq; [| vm_compute in Hq; discriminate].
    exists p, q. split; [reflexivity |]. split; [reflexivity |].
    apply (Hall ltac:(vm_compute; repeat constructor) 2%nat 5%nat p q);
      [lia | exact Hp | exact Hq].
Defined.

Lemma collapsed_axis (lo hi : float) :
  (hi <? lo)%float = true → finiteNumber lo → finiteNumber hi →
  (if lo <=? hi then lo else (lo + hi) / 2)%float = ((lo + hi) / 2)%float
  ∧ (if lo <=? hi then hi else (lo + hi) / 2)%float = ((lo + hi) / 2)%float
  ∧ isNumber ((lo + hi) / 2)%float
  ∧ ((lo + hi) / 2 <=? (lo + hi) / 2)%float = true.
Proof.
  intros Hlt Hlo Hhi. rewrite (ltb_leb_false lo hi Hlt).
  pose proof (midpoint_number lo hi Hlo Hhi) as Hmid.
  repeat split; [exact Hmid | apply isNumber_leb_refl, Hmid].
Qed.

(** C9. When on an axis the viewport is too small for the inset (the
    extent less the padding and half a piece at the far end falls short
    of the padding and half a piece at the near end, both measured from
    the anchor, as finite numbers), both ends of that axis's sampling
    range are the midpoint of the two computed bounds; the midpoint is a
    number and the range from it to itself is a valid one, of width
    zero, from which every candidate is sampled; and the call still
    returns one entry per piece. *)
Theorem scatter_collapses_axis (random : N → float) (hypot : float → float → float)
        (win : Window.t) (rect : Rect.t) :
  ((rangeMax win (Window.innerWidth win) (anchorX rect) <? rangeMin win (anchorX rect))%float
   = true →
   finiteNumber (rangeMin win (anchorX rect)) →
   finiteNumber (rangeMax win (Window.innerWidth win) (anchorX rect)) →
   safeMinX (frameOf win rect)
   = ((rangeMin win (anchorX rect) + rangeMax win (Window.innerWidth win) (anchorX rect))
      / 2)%float
   ∧ safeMaxX (frameOf win rect) = safeMinX (frameOf win rect)
   ∧ isNumber (safeMinX (frameOf win rect))
   ∧ (safeMinX (frameOf win rect) <=? safeMaxX (frameOf win rect))%float = true
   ∧ ∀ n, Pos.x (candidateAt random (frameOf win rect) n)
          = (safeMinX (frameOf win rect)
             + random n * (safeMinX (frameOf win rect) - safeMinX (frameOf win rect)))%float)
  ∧ ((rangeMax win (Window.innerHeight win) (anchorY rect) <? rangeMin win (anchorY rect))%float
     = true →
     finiteNumber (rangeMin win (anchorY rect)) →
     finiteNumber (rangeMax win (Window.innerHeight win) (anchorY rect)) →
     safeMinY (frameOf win rect)
     = ((rangeMin win (anchorY rect) + rangeMax win (Window.innerHeight win) (anchorY rect))
        / 2)%float
     ∧ safeMaxY (frameOf win rect) = safeMinY (frameOf win rect)
     ∧ isNumber (safeMinY (frameOf win rect))
     ∧ (safeMinY (frameOf win rect) <=? safeMaxY (frameOf win rect))%float = true
     ∧ ∀ n, Pos.y (candidateAt random (frameOf win rect) n)
            = (safeMinY (frameOf win rect)
               + random (N.succ n)
                 * (safeMinY (frameOf win rect) - safeMinY (frameOf win rect)))%float)
  ∧ (∀ (scatter : gmap string Entry.t) (n : N),
       ∃ scatter',
         (generateScatter random hypot win (Some rect) scatter n).1 = Some scatter'
         ∧ oneEntryPerPiece (scatterPositions random hypot win rect n).1.1 scatter').
Proof.
  destruct (range_frameOf win rect) as (EminX & EmaxX & EminY & EmaxY).
  split; [| split].
  - intros Hlt Hlo Hhi.
    destruct (collapsed_axis _ _ Hlt Hlo Hhi) as (Hmin & Hmax & Hnum & Hleb).
    assert (E1 : safeMinX (frameOf win rect)
                 = ((rangeMin win (anchorX rect)
                     + rangeMax win (Window.innerWidth win) (anchorX rect)) / 2)%float)
      by (unfold safeMinX; rewrite EminX, EmaxX; exact Hmin).
    assert (E2 : safeMaxX (frameOf win rect) = safeMinX (frameOf win rect))
      by (rewrite E1; unfold safeMaxX; rewrite EminX, EmaxX; exact Hmax).
    split; [exact E1 |]. split; [exact E2 |].
    split; [rewrite E1; exact Hnum |]. split; [rewrite E2, E1; exact Hleb |].
    intros n. unfold candidateAt, sampleCandidate, rand, mathRandom, bind, ret.
    cbn [fst snd Pos.x]. rewrite E2. reflexivity.
  - intros Hlt Hlo Hhi.
    destruct (collapsed_axis _ _ Hlt Hlo Hhi) as (Hmin & Hmax & Hnum & Hleb).
    assert (E1 : safeMinY (frameOf win rect)
                 = ((rangeMin win (anchorY rect)
                     + rangeMax win (Window.innerHeight win) (anchorY rect)) / 2)%float)
      by (unfold safeMinY; rewrite EminY, EmaxY; exact Hmin).
    assert (E2 : safeMaxY (frameOf win rect) = safeMinY (frameOf win rect))
      by (rewrite E1; unfold safeMaxY; rewrite EminY, EmaxY; exact Hmax).
    split; [exact E1 |]. split; [exact E2 |].
    split; [rewrite E1; exact Hnum |]. split; [rewrite E2, E1; exact Hleb |].
    intros n. unfold candidateAt, sampleCandidate, rand, mathRandom, bind, ret.
    cbn [fst snd Pos.y]. rewrite E2. reflexivity.
  - intros scatter n. apply generateScatter_total.
Qed.

Lemma scatter_collapses_axis_witness :
  (safeMaxX (frameOf tinyWindow tinyStage) = safeMinX (frameOf tinyWindow tinyStage)
   ∧ isNumber (safeMinX (frameOf tinyWindow tinyStage))
   ∧ (safeMinX (frameOf tinyWindow tinyStage) <=? safeMaxX (frameOf tinyWindow tinyStage))%float
     = true)
  ∧ (safeMaxY (frameOf tinyWindow tinyStage) = safeMinY (frameOf tinyWindow tinyStage)
     ∧ isNumber (safeMinY (frameOf tinyWindow tinyStage))
     ∧ (safeMinY (frameOf tinyWindow tinyStage) <=? safeMaxY (frameOf tinyWindow tinyStage))%float
       = true).
Proof.
  destruct (scatter_collapses_axis sampleRamp hypotSqrt tinyWindow tinyStage)
    as (HX & HY & _).
  split.
  - destruct HX as (_ & E & Hnum & Hleb & _); [vm_compute; reflexivity ..|]. auto.
  - destruct HY as (_ & E & Hnum & Hleb & _); [vm_compute; reflexivity ..|]. auto.
Defined.

(** X24. A piece falls back exactly when every one of its 600 candidates
    fails to be the frame's minimum distance away from some position
    accepted before it, and is accepted within budget exactly when some
    attempt within the budget is the first whose candidate is that far
    from all of them. *)
Theorem fallback_iff_exhausted (random : N → float) (hypot : float → float → float)
        (f : Frame.t) (positions : list Pos.t) (n : N) :
  ((placeOne random hypot f positions n).1.2 = false
   ↔ allTooClose random hypot f (Frame.minDistance f) positions n)
  ∧ ((placeOne random hypot f positions n).1.2 = true
     ↔ ∃ k, firstFarCandidate random hypot f (Frame.minDistance f) positions n k).
Proof.
  rewrite <- budgetExhausted_allTooClose.
  setoid_rewrite <- firstClear_firstFar.
  destruct (placeOne_cases random hypot f positions n) as [(k & Hfirst & ->) | [Hex ->]];
    cbn [fst snd].
  - split; split; [discriminate | | eauto | reflexivity].
    intros Hex. exfalso. exact (firstClear_not_exhausted _ _ _ _ _ _ Hfirst Hex).
  - split; split; [auto | reflexivity | discriminate |].
    intros [k Hfirst]. exfalso. exact (firstClear_not_exhausted _ _ _ _ _ _ Hfirst Hex).
Qed.

(** X25. In every layout, also one in which some pieces fell back, a
    piece that was accepted within its budget is at least the minimum
    separation (the visual size of a piece times 1.1) from every piece
    placed before it; and the layout has one flag per position, one per
    piece. *)
Theorem accepted_piece_clear_of_earlier (random : N → float)
        (hypot : float → float → float) (win : Window.t) (rect : Rect.t) (n : N) :
  length (scatterPositions random hypot win rect n).1.1 = length pieces
  ∧ length (scatterPositions random hypot win rect n).1.2 = length pieces
  ∧ ∀ (i j : nat) (p q : Pos.t), (i < j)%nat →
      (scatterPositions random hypot win rect n).1.1 !! i = Some p →
      (scatterPositions random hypot win rect n).1.1 !! j = Some q →
      (scatterPositions random hypot win rect n).1.2 !! j = Some true →
      atLeastApart hypot (minSeparation win) p q.
Proof.
  rewrite scatterPositions_eq.
  destruct (forEachPiece_accepted_clear random hypot (frameOf win rect) pieces ([], []) n)
    as [Hlen Hclear]; [reflexivity | intros i j p q _ H; discriminate H |].
  split; [rewrite forEachPiece_length; reflexivity |].
  split; [rewrite <- Hlen, forEachPiece_length; reflexivity |].
  intros i j p q Hij Hp Hq Hflag.
  rewrite <- minDistance_frameOf with (rect := rect).
  apply farEnough_apart. exact (Hclear i j p q Hij Hp Hq Hflag).
Qed.

Lemma accepted_piece_clear_of_earlier_witness :
  ∃ p q,
    (scatterPositions sampleHash hypotSqrt wideWindow wideStage 0%N).1.1 !! 1%nat = Some p
    ∧ (scatterPositions sampleHash hypotSqrt wideWindow wideStage 0%N).1.1 !! 7%nat = Some q
    ∧ atLeastApart hypotSqrt (minSeparation wideWindow) p q.
Proof.
  destruct ((scatterPositions sampleHash hypotSqrt wideWindow wideStage 0%N).1.1 !! 1%nat)
    as [p |] eqn:Hp; [| vm_compute in Hp; discriminate].
  destruct ((scatterPositions sampleHash hypotSqrt wideWindow wideStage 0%N).1.1 !! 7%nat)
    as [q |] eqn:Hq; [| vm_compute in Hq; discriminate].
  exists p, q. split; [reflexivity |]. split; [reflexivity |].
  apply (proj2 (proj2 (accepted_piece_clear_of_earlier sampleHash hypotSqrt wideWindow
                         wideStage 0%N)) 1%nat 7%nat p q);
    [lia | exact Hp | exact Hq |].
  vm_compute. reflexivity.
Defined.
